(** * BLMM: voxel partitioning, product-matrix resolution and the call of the
      inference stage

    A shallow embedding of [src/blmm_results.py] (the wrapper that splits the
    analysis mask into voxel groups, separates "ring" from "inner" voxels and
    reads the unique product matrices) and of the entry of
    [lib/blmm_inference.py] (the parameter list of [main] and the names its
    first statement reads).

    Conventions of the embedding:
    - a flattened volume (a numpy array reshaped to [v] or [v,1]) is a [list];
      voxel indices are [nat];
    - Python integers are [Z]; numpy fixed-width integers are [Z] with the
      wrap-around written out ([wrap]);
    - a float64 is the rational number it denotes, an infinity or a nan, and
      every operation rounds to the nearest double ([F64]); the group count
      is also given in exact arithmetic, without the rounding ([nvb], [nvg]);
    - the voxel data that is only copied around (product-matrix entries) is
      an abstract type;
    - a Python exception is [None], or the exception itself where its kind
      matters ([Inference.result]). *)

From Stdlib Require Import ZArith QArith Qround Lia Lqa.
From stdpp Require Import base option list sorting gmap strings.

Local Open Scope nat_scope.

(** ** numpy helpers *)

Module Np.

(** Two's-complement value of an integer stored in a signed [w]-bit numpy
    integer ([np.int32], [np.int64]). *)
Definition wrap (w : Z) (z : Z) : Z :=
  ((z + 2 ^ (w - 1)) mod 2 ^ w - 2 ^ (w - 1))%Z.

Definition int32 : Z → Z := wrap 32.
Definition int64 : Z → Z := wrap 64.

Section Arrays.
Context {A : Type}.

(** [ary[st:en]] for [0 <= st], [0 <= en]. *)
Definition slice (st en : nat) (ary : list A) : list A :=
  take (en - st) (drop st ary).

(** [np.cumsum], with the running total made explicit. *)
Fixpoint cumsum_from (acc : nat) (l : list nat) : list nat :=
  match l with
  | [] => []
  | x :: t => (acc + x) :: cumsum_from (acc + x) t
  end.

Definition cumsum : list nat → list nat := cumsum_from 0.

(** [np.array_split(ary, Nsections)] for an integer number of sections:
    [Neach_section, extras = divmod(Ntotal, Nsections)], the first [extras]
    sections have one more element, the cut points are the cumulative sums
    of the section sizes.  [ValueError] when [Nsections <= 0]. *)
Definition section_sizes (Ntotal Nsections : nat) : list nat :=
  let Neach_section := Ntotal / Nsections in
  let extras := Ntotal mod Nsections in
  [0] ++ replicate extras (Neach_section + 1)
      ++ replicate (Nsections - extras) Neach_section.

Definition array_split (ary : list A) (indices_or_sections : Z)
  : option (list (list A)) :=
  if (indices_or_sections <=? 0)%Z then None
  else
    let Nsections := Z.to_nat indices_or_sections in
    let div_points := cumsum (section_sizes (length ary) Nsections) in
    Some (map (λ i, slice (div_points !!! i) (div_points !!! (S i)) ary)
              (seq 0 Nsections)).

(** Cutting a list into consecutive pieces of the given sizes: what the
    slices between the cut points of [array_split] amount to. *)
Fixpoint chunks (sizes : list nat) (l : list A) : list (list A) :=
  match sizes with
  | [] => []
  | s :: ss => take s l :: chunks ss (drop s l)
  end.

(** [arr[ix]] with an integer index array: [IndexError] when an index is out
    of range. *)
Definition take_at (arr : list A) (ix : list nat) : option (list A) :=
  mapM (λ i, arr !! i) ix.
End Arrays.

(** [np.where(cond)[0]] on a flattened boolean array: the positions that hold
    [true], in ascending order. *)
Fixpoint where_from (i : nat) (cond : list bool) : list nat :=
  match cond with
  | [] => []
  | b :: t => if b then i :: where_from (S i) t else where_from (S i) t
  end.

Definition where_ : list bool → list nat := where_from 0.

(** [np.in1d(ar1, ar2)]: for every element of [ar1], whether it occurs in
    [ar2]. *)
Definition in1d `{EqDecision K} (ar1 ar2 : list K) : list bool :=
  map (λ x, bool_decide (x ∈ ar2)) ar1.

(** [np.sort] on an integer array (insertion into an ascending list). *)
Fixpoint insert_sorted (x : nat) (l : list nat) : list nat :=
  match l with
  | [] => [x]
  | y :: t => if x <=? y then x :: l else y :: insert_sorted x t
  end.

Definition sort (l : list nat) : list nat := foldr insert_sorted [] l.

(** [np.argsort]: the indices that sort the array.  Keys are paired with
    their positions and the pairs are sorted on the key.  Equal keys keep
    their order here; numpy's default sort leaves the order of ties open, and
    on an array without repetition every sort gives the same indices. *)
Fixpoint insert_keyed (x : nat * nat) (l : list (nat * nat)) : list (nat * nat) :=
  match l with
  | [] => [x]
  | y :: t => if x.1 <=? y.1 then x :: l else y :: insert_keyed x t
  end.

Definition argsort (l : list nat) : list nat :=
  (foldr insert_keyed [] (zip l (seq 0 (length l)))).*2.

End Np.

(** ** IEEE double precision

    A float64 (numpy's [float64], C's [double]) is kept as the rational number
    it denotes, or is an infinity or a nan.  Every arithmetic operation
    computes the exact result and rounds it to the nearest double, ties to
    the even significand ([round]).  The exponent range is not bounded: the
    values that the source computes from int64 operands neither overflow nor
    fall into the subnormal range.  The sign of a zero is not kept; it would
    only decide the sign of the infinity of a division by that zero. *)

Module F64.

Inductive float :=
  | Fin (x : Q)
  | Inf (negative : bool)
  | NaN.

(** [floor(log2(n/d))] for positive [n] and [d]. *)
Definition ilog2 (n : Z) (d : positive) : Z :=
  let c := (Z.log2 n - Z.log2 (Z.pos d))%Z in
  if (0 <=? c)%Z
  then (if (2 ^ c * Z.pos d <=? n)%Z then c else c - 1)%Z
  else (if (Z.pos d <=? 2 ^ (- c) * n)%Z then c else c - 1)%Z.

(** The integer nearest to [n/d] for [d > 0], ties to the even one. *)
Definition rne (n d : Z) : Z :=
  let f := (n / d)%Z in
  match (2 * (n mod d) ?= d)%Z with
  | Lt => f
  | Gt => (f + 1)%Z
  | Eq => if Z.even f then f else (f + 1)%Z
  end.

(** Rounding of [n/d > 0] to 53 significant bits: with
    [2^e <= n/d < 2^(e+1)] the result is the multiple of [2^(e-52)] nearest
    to [n/d]. *)
Definition round_pos (n : Z) (d : positive) : Q :=
  let s := (ilog2 n d - 52)%Z in
  if (0 <=? s)%Z
  then inject_Z (rne n (Z.pos d * 2 ^ s) * 2 ^ s)
  else Qmake (rne (n * 2 ^ (- s)) (Z.pos d)) (Z.to_pos (2 ^ (- s))).

Definition round (x : Q) : Q :=
  let x := Qred x in
  match Qnum x with
  | Z0 => 0
  | Z.pos n => round_pos (Z.pos n) (Qden x)
  | Z.neg n => - round_pos (Z.pos n) (Qden x)
  end.

(** The unit roundoff [2^-53]. *)
Definition unit_roundoff : Q := 1 # 9007199254740992.

(** Conversion of an integer ([(double)z] in C). *)
Definition of_int (z : Z) : float := Fin (round (inject_Z z)).

Definition neg (x : float) : float :=
  match x with
  | Fin a => Fin (- a)
  | Inf s => Inf (negb s)
  | NaN => NaN
  end.

Definition add (x y : float) : float :=
  match x, y with
  | Fin a, Fin b => Fin (round (a + b))
  | Fin _, Inf s | Inf s, Fin _ => Inf s
  | Inf s, Inf s' => if Bool.eqb s s' then Inf s else NaN
  | _, _ => NaN
  end.

Definition sub (x y : float) : float := add x (neg y).

(** [a < 0]. *)
Definition ltz (a : Q) : bool := negb (Qle_bool 0 a).

(** True division; numpy only warns on a division by zero and returns an
    infinity or a nan. *)
Definition div (x y : float) : float :=
  match x, y with
  | Fin a, Fin b =>
      if Qeq_bool b 0 then (if Qeq_bool a 0 then NaN else Inf (ltz a))
      else Fin (round (a / b))
  | Fin _, Inf _ => Fin 0
  | Inf s, Fin b => Inf (xorb s (ltz b))
  | _, _ => NaN
  end.

(** Rounding towards zero. *)
Definition trunc (x : Q) : Z := if Qle_bool 0 x then Qfloor x else Qceiling x.

(** C's [fmod]: the remainder of the division truncated towards zero; it is
    a double whenever the operands are, so nothing is rounded. *)
Definition fmod (x y : float) : float :=
  match x, y with
  | Fin a, Fin b =>
      if Qeq_bool b 0 then NaN else Fin (a - inject_Z (trunc (a / b)) * b)
  | Fin a, Inf _ => Fin a
  | _, _ => NaN
  end.

Definition floor (x : float) : float :=
  match x with
  | Fin a => Fin (inject_Z (Qfloor a))
  | _ => x
  end.

(** C's [isless] and [isgreater]: false when an operand is a nan. *)
Definition isless (x y : float) : bool :=
  match x, y with
  | Fin a, Fin b => negb (Qle_bool b a)
  | Fin _, Inf s => negb s
  | Inf s, Fin _ => s
  | Inf s, Inf s' => s && negb s'
  | _, _ => false
  end.

Definition isgreater (x y : float) : bool := isless y x.

(** C's truth value of a double: anything but a zero. *)
Definition nonzero (x : float) : bool :=
  match x with
  | Fin a => negb (Qeq_bool a 0)
  | _ => true
  end.

(** The quotient of numpy's [npy_divmod], which [//] on a [float64] calls
    (CPython's [float_divmod] is the same algorithm):
    [mod = fmod(a, b)]; for [b == 0] the result is [a / b];
    [div = (a - mod) / b];
    [if (mod) { if (isless(b, 0) != isless(mod, 0)) { mod += b; div -= 1.0; } }];
    [if (div) { floordiv = floor(div);
                if (isgreater(div - floordiv, 0.5)) floordiv += 1.0; }]
    [else floordiv = copysign(0, a/b)]. *)
Definition npy_divmod (a b : float) : float :=
  let mod_ := fmod a b in
  if negb (nonzero b) then div a b
  else
    let div0 := div (sub a mod_) b in
    let div1 :=
      if nonzero mod_
         && negb (Bool.eqb (isless b (Fin 0)) (isless mod_ (Fin 0)))
      then sub div0 (Fin 1) else div0 in
    if nonzero div1 then
      let floordiv := floor div1 in
      if isgreater (sub div1 floordiv) (Fin (1 # 2))
      then add floordiv (Fin 1) else floordiv
    else Fin 0.

Definition floor_divide : float → float → float := npy_divmod.

(** Python's [int(x)]: [ValueError] on a nan, [OverflowError] on an
    infinity. *)
Definition to_int (x : float) : option Z :=
  match x with
  | Fin a => Some (trunc a)
  | _ => None
  end.

End F64.

(** ** [blmm_results.main]: splitting the block into computable groups *)

Module Results.

(** Lines 175-181 read in exact arithmetic.
    [nvb = MAXMEM/(10*8*(q**2))] with [q] a numpy [int64], the quotient kept
    as the rational number it is before float64 rounds it. *)
Definition nvb (MAXMEM q : Z) : Q :=
  inject_Z MAXMEM / inject_Z (Np.int64 (10 * 8 * Np.int64 (q ^ 2))).

(** [nvg = int(len(bamInds)//nvb+1)] with the floor of the exact quotient;
    the floor division by a float zero gives [inf] or [nan], on which [int]
    raises. *)
Definition nvg (MAXMEM q : Z) (bamInds : list nat) : option Z :=
  let nvb := nvb MAXMEM q in
  if Qeq_bool nvb 0 then None
  else Some (Qfloor (inject_Z (Z.of_nat (length bamInds)) / nvb) + 1)%Z.

(** [voxelGroups = np.array_split(bamInds, nvg)]. *)
Definition voxelGroups (MAXMEM q : Z) (bamInds : list nat)
  : option (list (list nat)) :=
  nvg MAXMEM q bamInds ≫= Np.array_split bamInds.

(** Lines 175-181 as float64 computes them.
    [nvb = MAXMEM/(10*8*(q**2))]: the Python integer [MAXMEM] (taken within
    the int64 range, as numpy converts it) and the [int64] divisor are both
    converted to doubles and divided. *)
Definition nvb_f64 (MAXMEM q : Z) : F64.float :=
  F64.div (F64.of_int MAXMEM)
          (F64.of_int (Np.int64 (10 * 8 * Np.int64 (q ^ 2)))).

(** [nvg = int(len(bamInds)//nvb+1)]: float floor division, float addition,
    truncation. *)
Definition nvg_f64 (MAXMEM q : Z) (bamInds : list nat) : option Z :=
  F64.to_int
    (F64.add
       (F64.floor_divide (F64.of_int (Z.of_nat (length bamInds)))
                         (nvb_f64 MAXMEM q))
       (F64.Fin 1)).

(** [voxelGroups = np.array_split(bamInds, nvg)]. *)
Definition voxelGroups_f64 (MAXMEM q : Z) (bamInds : list nat)
  : option (list (list nat)) :=
  nvg_f64 MAXMEM q bamInds ≫= Np.array_split bamInds.

(** The group count as the specification words it:
    [ceil(|bamInds| / floor(B / (10*8*q^2)))]. *)
Definition spec_group_count (B q : Z) (bamInds : list nat) : Z :=
  let voxels_per_group := (B / (10 * 8 * q ^ 2))%Z in
  let len := Z.of_nat (length bamInds) in
  ((len + voxels_per_group - 1) / voxels_per_group)%Z.

(** ** [blmm_results.main]: ring and inner voxels of one group *)

(** [Mask_cv = np.array(Mask)] followed by
    [Mask_cv[~np.in1d(np.arange(v).reshape(v,1), bamInds_cv)] = 0]. *)
Definition Mask_cv (v : nat) (Mask : list Z) (bamInds_cv : list nat) : list Z :=
  zip_with (λ (keep : bool) m, if negb keep then 0%Z else m)
           (Np.in1d (seq 0 v) bamInds_cv) Mask.

(** [(Mask_cv==1)*(n_sv<n)] and [(Mask_cv==1)*(n_sv==n)]: the product of two
    boolean arrays is their conjunction. *)
Definition ring_cond (Mask_cv n_sv : list Z) (n : Z) : list bool :=
  zip_with andb (map (λ m, m =? 1)%Z Mask_cv) (map (λ k, k <? n)%Z n_sv).

Definition inner_cond (Mask_cv n_sv : list Z) (n : Z) : list bool :=
  zip_with andb (map (λ m, m =? 1)%Z Mask_cv) (map (λ k, k =? n)%Z n_sv).

(** [R_inds = np.sort(np.where((Mask_cv==1)*(n_sv<n))[0])]. *)
Definition R_inds (v : nat) (Mask n_sv : list Z) (n : Z) (bamInds_cv : list nat)
  : list nat :=
  Np.sort (Np.where_ (ring_cond (Mask_cv v Mask bamInds_cv) n_sv n)).

(** [I_inds = np.sort(np.where((Mask_cv==1)*(n_sv==n))[0])]. *)
Definition I_inds (v : nat) (Mask n_sv : list Z) (n : Z) (bamInds_cv : list nat)
  : list nat :=
  Np.sort (Np.where_ (inner_cond (Mask_cv v Mask bamInds_cv) n_sv n)).

(** The indices of a subset in relation to the analysis mask:
    [ix = np.argsort(np.argsort(inds))] and
    [inds_am = np.sort(np.where(np.in1d(amInds,inds))[0])[ix]]. *)
Definition inds_am (amInds inds : list nat) : option (list nat) :=
  let ix := Np.argsort (Np.argsort inds) in
  Np.take_at (Np.sort (Np.where_ (Np.in1d amInds inds))) ix.

Definition R_inds_am (amInds : list nat) (v : nat) (Mask n_sv : list Z) (n : Z)
    (bamInds_cv : list nat) : option (list nat) :=
  inds_am amInds (R_inds v Mask n_sv n bamInds_cv).

Definition I_inds_am (amInds : list nat) (v : nat) (Mask n_sv : list Z) (n : Z)
    (bamInds_cv : list nat) : option (list nat) :=
  inds_am amInds (I_inds v Mask n_sv n bamInds_cv).

(** ** [readUniqueAtB] *)

(** A 2-d array as numpy holds it: the second dimension is known even when
    there are no rows. *)
Record matrix (A : Type) := Matrix { shape1 : nat; mrows : list (list A) }.
Arguments Matrix {A} _ _.
Arguments shape1 {A} _.
Arguments mrows {A} _.

Definition wf_matrix {A} (M : matrix A) : Prop :=
  Forall (λ r, length r = shape1 M) (mrows M).

(** What [readUniqueAtB] returns: one row per voxel when [sv], one single row
    otherwise. *)
Inductive AtB_result (A : Type) :=
  | PerVoxel (rows : list (list A))
  | Shared (row : list A).
Arguments PerVoxel {A} _.
Arguments Shared {A} _.

(** A [for] loop whose body may raise. *)
Fixpoint for_ {S X : Type} (xs : list X) (body : X → S → option S) (s : S)
  : option S :=
  match xs with
  | [] => Some s
  | x :: t => body x s ≫= for_ t body
  end.

(** [range(a, b)]. *)
Definition range (a b : Z) : list Z :=
  map (λ k, a + Z.of_nat k)%Z (seq 0 (Z.to_nat (b - a))).

(** [np.amax] of a flattened integer array; [ValueError] on an empty one. *)
Definition amax (l : list Z) : option Z :=
  match l with
  | [] => None
  | x :: t => Some (foldl Z.max x t)
  end.

Section ReadUnique.
Context {A : Type} (zero : A).

(** The body of the loop for [sv = True]:
    [AtB[np.where(uniquenessMask==m),:] = AtB_unique[(m-1),:]]. *)
Definition fill_sv (AtB_unique : matrix A) (uniquenessMask : list Z)
    (m : Z) (AtB : list (list A)) : option (list (list A)) :=
  row ← mrows AtB_unique !! Z.to_nat (m - 1);
  Some (foldr (λ i acc, <[i := row]> acc) AtB
              (Np.where_ (map (λ u, u =? m)%Z uniquenessMask))).

(** The body of the loop for [sv = False]:
    [if uniquenessMask == m: AtB = AtB_unique[(m-1),:]].  [AtB] is unbound
    until the first assignment. *)
Definition fill_inner (AtB_unique : matrix A) (uniquenessMask : Z)
    (m : Z) (AtB : option (list A)) : option (option (list A)) :=
  if (uniquenessMask =? m)%Z
  then row ← mrows AtB_unique !! Z.to_nat (m - 1); Some (Some row)
  else Some AtB.

(** [readUniqueAtB(AtBstr, OutDir, vinds, sv)].  The two files it loads are
    arguments here: the flattened uniqueness mask [blmm_vox_uniqueM.nii]
    and the unique product matrices [AtBstr.npy]. *)
Definition readUniqueAtB (uniquenessMask : list Z) (AtB_unique : matrix A)
    (vinds : list nat) (sv : bool) : option (AtB_result A) :=
  let vcurrent := length vinds in
  maxM ← Np.int32 <$> amax uniquenessMask;
  let ms := range 1 (Np.int32 (maxM + 1)) in
  if sv then
    uM ← Np.take_at uniquenessMask vinds;
    let AtB := replicate vcurrent (replicate (shape1 AtB_unique) zero) in
    PerVoxel <$> for_ ms (fill_sv AtB_unique uM) AtB
  else
    v0 ← vinds !! 0;
    uM ← uniquenessMask !! v0;
    AtB ← for_ ms (fill_inner AtB_unique uM) None;
    Shared <$> AtB.
End ReadUnique.

End Results.

(** ** [blmm_inference.main] *)

Module Inference.

(** A numpy array: its shape and its entries in row-major order. *)
Record ndarray (A : Type) := NdArray { shape : list nat; data : list A }.
Arguments NdArray {A} _ _.
Arguments shape {A} _.
Arguments data {A} _.

Definition ndim {A} (L : ndarray A) : nat := length (shape L).

Definition size_of (sh : list nat) : nat := foldr Nat.mul 1 sh.

Definition wf_ndarray {A} (L : ndarray A) : Prop :=
  length (data L) = size_of (shape L).

(** [L.reshape(newshape)]: [ValueError] unless the sizes agree. *)
Definition reshape {A} (L : ndarray A) (newshape : list nat) : option (ndarray A) :=
  if decide (size_of newshape = length (data L))
  then Some (NdArray newshape (data L)) else None.

(** *** The call of [main]

    Line 29 declares [main] with the single starred parameter [args]; the
    comment on that line lists what the caller passes (inputs, nparams,
    nlevels, n, product matrices, parameter estimates).  The body never
    unpacks [args]: it reads [inds], [XtX], [nparams], [inputs], ... as
    names of their own. *)

(** The Python values that are passed to [main]. *)
#[warnings="-register-all"]
Inductive pyval :=
  | PyNone
  | PyBool (b : bool)
  | PyInt (z : Z)
  | PyFloat (x : Q)
  | PyStr (s : string)
  | PyList (l : list pyval)
  | PyDict (items : list (string * pyval))
  | PyArray (a : ndarray Q).

Inductive exn :=
  | NameError (name : string)
  | UnboundLocalError (name : string).

(** How a call ends: [main] has no [return] statement. *)
Inductive result :=
  | Returned
  | Raised (e : exn).

(** One call of [addBlockToNifti(fname, block, inds, volc=..., dim=...)]:
    the file, the frame and the dimensions of the volume. *)
Record write := Write_ {
  fname : string;
  volc : option nat;
  dim : list nat
}.

(** The parameter list of line 29. *)
Definition parameters : list string := ["args"]%string.

(** The names that the body of [main] assigns (lines 36-185); with the
    parameter they are the local names of the function. *)
Definition assigned : list string :=
  ["v"; "p"; "q"; "qu"; "c"; "DinvIplusZtZD"; "Zte"; "ete"; "REML"; "llh";
   "resms"; "OutputCovB"; "dimCov"; "covB"; "nt"; "nf"; "i"; "L";
   "current_nt"; "current_nf"; "statType"; "dimT"; "Lbeta"; "seLB"; "swdfc";
   "Tc"; "pc"; "dimF"; "Fc"; "R2"]%string.

(** The names that lines 1-29 bind at module level, the star imports of
    lines 22 and 23 apart. *)
Definition module_names : list string :=
  ["w"; "np"; "subprocess"; "warnings"; "resource"; "nib"; "sys"; "os";
   "glob"; "shutil"; "yaml"; "time"; "blmm_eval"; "stats"; "blmm_load";
   "pSFS"; "main"]%string.

(** The names that line 36, [v = np.prod(inds.shape)], reads, in the order
    of evaluation. *)
Definition line36_reads : list string := ["np"; "inds"]%string.

(** The names that the body reads as its inputs: none is a parameter, none
    is assigned in the body and none is bound by lines 1-29.  The caller
    passes seventeen values, for the names below up to [OutDir], [NIFTIsize]
    and [nifti] (and with [nraneffs] for [nparams]). *)
Definition input_names : list string :=
  ["inds"; "XtX"; "nparams"; "nlevels"; "inputs"; "D"; "ZtZ"; "ZtY"; "ZtX";
   "beta"; "YtX"; "YtY"; "n"; "sigma2"; "XtZ"; "OutDir"; "NIFTIsize";
   "nifti"; "XtY"; "YtZ"]%string.

(** The functions of the star imports that the body calls. *)
Definition called_names : list string :=
  ["ssr3D"; "llh3D"; "addBlockToNifti"; "getesms3D"; "get_covB3D";
   "get_varLB3D"; "get_swdf_T3D"; "get_T3D"; "T2P3D"; "get_swdf_F3D";
   "get_F3D"; "F2P3D"; "get_R23D"]%string.

Inductive statType := StatT | StatF.

(** The test of lines 105 and 122,
    [if L.ndim == 1: statType='T' ... else: statType='F'], which the comment
    of line 121 marks with [NTS: FIX THIS]. *)
Definition classify (L : ndarray Q) : statType :=
  if ndim L =? 1 then StatT else StatF.

Section Main.
(** The names bound outside this file that a global lookup can find: what
    [lib.tools3d] and [lib.tools2d] export (the star imports), the
    attributes every module has ([__name__], [__file__], ...) and Python's
    builtins. *)
Variable other_names : list string.

(** Line 36 from the call of [np.prod] on, and lines 37-185: they run with
    every name of line 36 bound, and what they do rests on [ssr3D], [llh3D],
    [addBlockToNifti], [getesms3D] and the other functions of the star
    imports. *)
Variable rest : list pyval → list write * result.

Definition globals : list string := module_names ++ other_names.

(** Reading a name inside [main]: a local name (a parameter or a name
    assigned in the body) must be bound already, any other name is looked up
    at module level. *)
Definition load (bound : list string) (name : string) : option exn :=
  if decide (name ∈ parameters ++ assigned) then
    if decide (name ∈ bound) then None else Some (UnboundLocalError name)
  else if decide (name ∈ globals) then None else Some (NameError name).

(** The first read that raises, if any. *)
Fixpoint loads (bound names : list string) : option exn :=
  match names with
  | [] => None
  | name :: names =>
      match load bound name with
      | Some e => Some e
      | None => loads bound names
      end
  end.

(** [main( *args)]: the files written and how the call ends.  On entry only
    [args] is bound. *)
Definition main (args : list pyval) : list write * result :=
  match loads parameters line36_reads with
  | Some e => ([], Raised e)
  | None => rest args
  end.
End Main.

(** *** Calls of [main]

    The arguments as [blmm_results.main] passes them for the inner voxels
    (line 295):
    [main(inputs, nraneffs, nlevels, I_inds, beta_i, D_i, sigma2_i, n,
          XtX_i, XtY_i, XtZ_i, YtX_i, YtY_i, YtZ_i, ZtX_i, ZtY_i, ZtZ_i)],
    here for one voxel, four observations with design rows
    (1,0), (1,0), (1,1), (1,1), one random factor with two levels and the
    responses 1, 2, 3, 4. *)
Definition array (sh : list nat) (entries : list Q) : pyval :=
  PyArray (NdArray sh entries).

Definition call (inputs : pyval) : list pyval :=
  [ inputs;
    array [1] [1%Q];                       (* nraneffs *)
    array [1] [2%Q];                       (* nlevels *)
    array [1] [0%Q];                       (* I_inds *)
    array [1; 2; 1] [3 # 2; 2%Q];          (* beta_i *)
    array [1; 2; 2] [0; 0; 0; 0]%Q;        (* D_i *)
    array [1] [1 # 4];                     (* sigma2_i *)
    PyInt 4;                               (* n *)
    array [1; 2; 2] [4; 2; 2; 2]%Q;        (* XtX_i *)
    array [1; 2; 1] [10; 7]%Q;             (* XtY_i *)
    array [1; 2; 2] [2; 2; 0; 2]%Q;        (* XtZ_i *)
    array [1; 1; 2] [10; 7]%Q;             (* YtX_i *)
    array [1; 1; 1] [30%Q];                (* YtY_i *)
    array [1; 1; 2] [3; 7]%Q;              (* YtZ_i *)
    array [1; 2; 2] [2; 0; 2; 2]%Q;        (* ZtX_i *)
    array [1; 2; 1] [3; 7]%Q;              (* ZtY_i *)
    array [1; 2; 2] [2; 0; 0; 2]%Q ].      (* ZtZ_i *)

(** An entry of [inputs['contrasts']]:
    [{'c<i>': {'name': ..., 'vector': ...}}]. *)
Definition contrast (key : string) (vector : pyval) : pyval :=
  PyDict [(key, PyDict [("name"%string, PyStr key);
                        ("vector"%string, vector)])].

Definition vector (xs : list Z) : pyval := PyList (PyInt <$> xs).

Definition inputs_with (contrasts : list pyval)
    (flags : list (string * pyval)) : pyval :=
  PyDict ([("outdir"%string, PyStr "out"); ("contrasts"%string, PyList contrasts)]
          ++ flags).

End Inference.

(** ** [blmm_results.main]: the number of fixed-effect parameters *)

Module Params.
Import Inference.

(** [p = L1.shape[0]] for [L1] the first contrast's vector; an empty contrast
    list or a 0-d array raises. *)
Definition get_p (contrasts : list (ndarray Q)) : option nat :=
  L1 ← contrasts !! 0; shape L1 !! 0.

Section Loads.
Context {A : Type}.

(** Modelled from the spec: [readLinesFromNPY] of [lib/fileio.py], which is
    not among the sources.  The store of a product matrix is addressable by
    analysis-mask-restricted row index: the requested rows, one per index,
    each as wide as the store. *)
Definition readLinesFromNPY (store : Results.matrix A) (lines : list nat)
  : option (ndarray A) :=
  rows ← Np.take_at (Results.mrows store) lines;
  Some (NdArray [length lines; Results.shape1 store] (concat rows)).

(** [XtY_r = readLinesFromNPY(..., R_inds_am).reshape([v_r, p, 1])], and the
    same for the inner voxels with [I_inds_am] and [v_i]. *)
Definition load_XtY (store : Results.matrix A) (inds_am : list nat)
    (v_r p : nat) : option (ndarray A) :=
  block ← readLinesFromNPY store inds_am;
  reshape block [v_r; p; 1].
End Loads.

End Params.

(** ** [blmm_results.main]: what is read for one group *)

Module Group.
Import Results Inference.

(** [n_sv_r = n_sv[R_inds,:]]: the number of observations of every ring
    voxel. *)
Definition n_sv_r (n_sv : list Z) (R_inds : list nat) : option (list Z) :=
  Np.take_at n_sv R_inds.

(** [v_r = R_inds.shape[0]], [v_i = I_inds.shape[0]] and [v_m = v_i + v_r]. *)
Definition v_r (R_inds : list nat) : nat := length R_inds.
Definition v_i (I_inds : list nat) : nat := length I_inds.
Definition v_m (R_inds I_inds : list nat) : nat := v_i I_inds + v_r R_inds.

Section Unique.
Context {A : Type} (zero : A).

(** The array [readUniqueAtB] hands back: [vcurrent] rows as wide as the
    store when [sv], one flat row otherwise. *)
Definition as_ndarray (AtB_unique : matrix A) (res : AtB_result A)
  : ndarray A :=
  match res with
  | PerVoxel rows => NdArray [length rows; shape1 AtB_unique] (concat rows)
  | Shared row => NdArray [length row] row
  end.

(** [readUniqueAtB(AtBstr,OutDir,vinds,sv).reshape(newshape)]: the ring
    matrices are read with [sv = True] and [newshape = [v_r, a, b]], the
    inner ones with [sv = False] and [newshape = [1, a, b]], where [a] and
    [b] are [q] or [p]. *)
Definition load_unique (uniquenessMask : list Z) (AtB_unique : matrix A)
    (vinds : list nat) (sv : bool) (newshape : list nat)
  : option (ndarray A) :=
  res ← readUniqueAtB zero uniquenessMask AtB_unique vinds sv;
  reshape (as_ndarray AtB_unique res) newshape.

(** The row a voxel labelled [u] resolves to when every label has a stored
    row: the [u]-th row of the store for [u >= 1], zeros otherwise. *)
Definition resolved_row (AtB_unique : matrix A) (u : Z) : list A :=
  if decide (1 ≤ u)%Z
  then default (replicate (shape1 AtB_unique) zero)
               (mrows AtB_unique !! Z.to_nat (u - 1))
  else replicate (shape1 AtB_unique) zero.
End Unique.

(** The rows of a reshaped block [X] of [v x c x 1] entries line up with the
    voxels [inds]: the [c] entries of voxel number [i] are the row that the
    store holds at the position of that voxel within [amInds]. *)
Definition rows_aligned {A} (store : matrix A) (amInds inds : list nat)
    (X : ndarray A) : Prop :=
  shape X = [length inds; shape1 store; 1]
  ∧ ∀ i x, inds !! i = Some x →
      ∃ j row, amInds !! j = Some x ∧ mrows store !! j = Some row
             ∧ take (shape1 store) (drop (i * shape1 store) (data X)) = row.

End Group.

(** * Properties *)

Import Results Inference Params.

(** ** Facts about the numpy helpers *)

Section NpFacts.
Context {A : Type}.
Implicit Types (l ary : list A) (sizes : list nat).

Lemma slices_chunks sizes : ∀ acc ary,
  map (λ i, Np.slice ((acc :: Np.cumsum_from acc sizes) !!! i)
                     ((acc :: Np.cumsum_from acc sizes) !!! S i) ary)
      (seq 0 (length sizes))
  = Np.chunks sizes (drop acc ary).
Proof.
  induction sizes as [|s ss IH]; intros acc ary; [done|].
  cbn [length seq map Np.chunks Np.cumsum_from]. f_equal.
  - unfold Np.slice. cbn. f_equal. lia.
  - rewrite <- fmap_S_seq, <- list_fmap_compose, drop_drop, <- IH.
    apply map_ext. intros i. reflexivity.
Qed.

Lemma concat_chunks sizes : ∀ l,
  concat (Np.chunks sizes l) = take (sum_list sizes) l.
Proof.
  induction sizes as [|s ss IH]; intros l; cbn; [done|].
  rewrite IH. apply take_take_drop.
Qed.

Lemma length_chunks sizes l : length (Np.chunks sizes l) = length sizes.
Proof. revert l; induction sizes; intros; cbn; auto. Qed.

Lemma map_length_chunks sizes : ∀ l,
  sum_list sizes ≤ length l → map length (Np.chunks sizes l) = sizes.
Proof.
  induction sizes as [|s ss IH]; intros l Hl; cbn in *; [done|].
  rewrite length_take, IH by (rewrite length_drop; lia).
  f_equal. lia.
Qed.

Lemma sum_list_section_sizes Ntotal Nsections :
  0 < Nsections → sum_list (Np.section_sizes Ntotal Nsections) = Ntotal.
Proof.
  intros Hn. unfold Np.section_sizes.
  rewrite !sum_list_with_app, !sum_list_replicate. cbn.
  pose proof (Nat.div_mod_eq Ntotal Nsections).
  pose proof (Nat.mod_upper_bound Ntotal Nsections). nia.
Qed.

(** [np.array_split] with a positive number of sections: that many
    consecutive pieces, the first [Ntotal mod Nsections] one longer than
    the others, which put back together give the array. *)
Lemma array_split_spec ary (k : Z) :
  (0 < k)%Z →
  ∃ gs, Np.array_split ary k = Some gs
     ∧ length gs = Z.to_nat k
     ∧ concat gs = ary
     ∧ map length gs =
         replicate (length ary mod Z.to_nat k) (length ary / Z.to_nat k + 1)
         ++ replicate (Z.to_nat k - length ary mod Z.to_nat k)
                      (length ary / Z.to_nat k).
Proof.
  intros Hk. unfold Np.array_split.
  destruct (k <=? 0)%Z eqn:E; [lia|]. clear E.
  set (n := Z.to_nat k). assert (0 < n) as Hn by lia.
  set (sizes := replicate (length ary mod n) (length ary / n + 1)
                ++ replicate (n - length ary mod n) (length ary / n)).
  assert (length sizes = n) as Hlen.
  { unfold sizes. rewrite length_app, !length_replicate.
    pose proof (Nat.mod_upper_bound (length ary) n). lia. }
  assert (sum_list sizes = length ary) as Hsum.
  { exact (sum_list_section_sizes (length ary) n Hn). }
  eexists. split; [reflexivity|].
  change (Np.cumsum (Np.section_sizes (length ary) n))
    with ((0 + 0) :: Np.cumsum_from (0 + 0) sizes).
  cbn [Nat.add]. rewrite <- Hlen at 1 3 4. rewrite slices_chunks, drop_0.
  rewrite length_chunks, concat_chunks, Hsum, firstn_all.
  rewrite map_length_chunks by lia. auto.
Qed.

(** Every piece is made of elements of the array. *)
Lemma array_split_subseteq ary (k : Z) gs g :
  Np.array_split ary k = Some gs → g ∈ gs → g ⊆ ary.
Proof.
  unfold Np.array_split. destruct (k <=? 0)%Z; [discriminate|].
  intros [= <-] (i & -> & _)%list_elem_of_fmap.
  unfold Np.slice. etrans; [apply subseteq_take | apply subseteq_drop].
Qed.
End NpFacts.

(** ** Rounding to double precision *)

Section Rounding.
Import F64.
Local Open Scope Z_scope.

Lemma rne_cases (n d : Z) :
  0 < d → (rne n d = n / d ∧ 2 * (n mod d) <= d)
        ∨ (rne n d = n / d + 1 ∧ d <= 2 * (n mod d)).
Proof.
  intros Hd. unfold rne.
  destruct (Z.compare_spec (2 * (n mod d)) d) as [E|E|E].
  - destruct (Z.even (n / d)); [left|right]; lia.
  - left; lia.
  - right; lia.
Qed.

Lemma rne_err (n d : Z) :
  0 < d → 2 * (n - rne n d * d) <= d ∧ 2 * (rne n d * d - n) <= d.
Proof.
  intros Hd. pose proof (Z.div_mod n d ltac:(lia)) as E.
  pose proof (Z.mod_pos_bound n d Hd) as B.
  destruct (rne_cases n d Hd) as [[-> H]|[-> H]]; nia.
Qed.

Lemma rne_le (n d K : Z) : 0 < d → n <= K * d → rne n d <= K.
Proof.
  intros Hd Hn. pose proof (Z.div_mod n d ltac:(lia)) as E.
  pose proof (Z.mod_pos_bound n d Hd) as B.
  destruct (rne_cases n d Hd) as [[-> H]|[-> H]]; [nia|].
  assert (n / d < K) by nia. lia.
Qed.

Lemma rne_ge (n d K : Z) : 0 < d → K * d <= n → K <= rne n d.
Proof.
  intros Hd Hn. pose proof (Z.div_mod n d ltac:(lia)) as E.
  pose proof (Z.mod_pos_bound n d Hd) as B.
  destruct (rne_cases n d Hd) as [[-> H]|[-> H]]; nia.
Qed.

Lemma ilog2_lower (n : Z) (d : positive) :
  0 < n →
  (0 <= ilog2 n d → 2 ^ ilog2 n d * Z.pos d <= n)
  ∧ (ilog2 n d < 0 → Z.pos d <= 2 ^ (- ilog2 n d) * n).
Proof.
  intros Hn. unfold ilog2.
  pose proof (Z.log2_spec n Hn) as [Ln _].
  pose proof (Z.log2_spec (Z.pos d) ltac:(lia)) as [_ Ld].
  pose proof (Z.log2_nonneg n) as Nn.
  pose proof (Z.log2_nonneg (Z.pos d)) as Nd.
  set (ln := Z.log2 n) in *. set (ld := Z.log2 (Z.pos d)) in *.
  destruct (Z.leb_spec 0 (ln - ld)) as [Hc|Hc].
  - destruct (Z.leb_spec (2 ^ (ln - ld) * Z.pos d) n) as [Ht|Ht].
    + split; [intros _; exact Ht | lia].
    + split.
      * intros He.
        assert (2 ^ (ln - ld - 1) * 2 ^ Z.succ ld = 2 ^ ln) as Hp.
        { rewrite <- Z.pow_add_r by lia. f_equal. lia. }
        assert (0 < 2 ^ (ln - ld - 1)) by (apply Z.pow_pos_nonneg; lia).
        nia.
      * intros He. assert (ln = ld) as Heq by lia.
        replace (- (ln - ld - 1)) with 1 by lia.
        rewrite Heq in Ln. change (2 ^ 1) with 2.
        rewrite Z.pow_succ_r in Ld by lia. lia.
  - destruct (Z.leb_spec (Z.pos d) (2 ^ (- (ln - ld)) * n)) as [Ht|Ht].
    + split; [lia | intros _; exact Ht].
    + split; [lia|]. intros _.
      assert (2 ^ (- (ln - ld - 1)) * 2 ^ ln = 2 ^ Z.succ ld) as Hp.
      { rewrite <- Z.pow_add_r by lia. f_equal. lia. }
      assert (0 < 2 ^ (- (ln - ld - 1))) by (apply Z.pow_pos_nonneg; lia).
      nia.
Qed.

Lemma round_pos_spec (n : Z) (d : positive) :
  0 < n →
  ∃ M T : Z,
    0 < T ∧ (round_pos n d == M # Z.to_pos T)%Q
    ∧ 2 ^ 53 * (n * T - M * Z.pos d) <= n * T
    ∧ 2 ^ 53 * (M * Z.pos d - n * T) <= n * T
    ∧ (∀ K, n <= K * Z.pos d → K < 2 ^ 53 → M <= K * T)
    ∧ (∀ K, K * Z.pos d <= n → K <= 2 ^ 53 → K * T <= M).
Proof.
  intros Hn. unfold round_pos.
  destruct (ilog2_lower n d Hn) as [Hlo1 Hlo2].
  set (e := ilog2 n d) in *.
  destruct (Z.leb_spec 0 (e - 52)) as [Hs|Hs].
  - set (P := 2 ^ (e - 52)).
    assert (0 < P) as HP by (apply Z.pow_pos_nonneg; lia).
    assert (2 ^ e = 2 ^ 52 * P) as He.
    { unfold P. rewrite <- Z.pow_add_r by lia. f_equal. lia. }
    specialize (Hlo1 ltac:(lia)). rewrite He in Hlo1.
    set (m := rne n (Z.pos d * P)).
    assert (0 < Z.pos d * P) as HD by lia.
    pose proof (rne_err n (Z.pos d * P) HD) as [E1 E2]. fold m in E1, E2.
    assert (2 ^ 52 <= m) as Hm.
    { apply rne_ge; [exact HD | lia]. }
    exists (m * P), 1. split; [lia|]. split; [reflexivity|].
    split; [lia|]. split; [lia|]. split.
    + intros K HK HK53.
      assert (P = 1) as HP1.
      { destruct (Z.eq_dec P 1) as [->|]; [done|]. exfalso.
        assert (2 <= P) by lia. nia. }
      rewrite HP1 in *. rewrite !Z.mul_1_r in *.
      subst m. apply rne_le; lia.
    + intros K HK HK53.
      destruct (Z.eq_dec P 1) as [HP1|HP1].
      * rewrite HP1 in *. rewrite !Z.mul_1_r in *.
        subst m. apply rne_ge; lia.
      * assert (2 <= P) by lia. nia.
  - set (T := 2 ^ (- (e - 52))).
    assert (0 < T) as HT by (apply Z.pow_pos_nonneg; lia).
    assert (2 ^ 52 * Z.pos d <= n * T) as Hlo.
    { destruct (Z.leb_spec 0 e) as [He|He].
      - specialize (Hlo1 He).
        assert (2 ^ e * T = 2 ^ 52) as Hp.
        { unfold T. rewrite <- Z.pow_add_r by lia. f_equal. lia. }
        assert (0 < 2 ^ e) by (apply Z.pow_pos_nonneg; lia).
        nia.
      - specialize (Hlo2 He).
        assert (T = 2 ^ 52 * 2 ^ (- e)) as Hp.
        { unfold T. rewrite <- Z.pow_add_r by lia. f_equal. lia. }
        rewrite Hp. nia. }
    set (M := rne (n * T) (Z.pos d)).
    pose proof (rne_err (n * T) (Z.pos d) ltac:(lia)) as [E1 E2].
    fold M in E1, E2.
    exists M, T. split; [exact HT|]. split; [reflexivity|].
    split; [lia|]. split; [lia|]. split.
    + intros K HK _. subst M. apply rne_le; [lia | nia].
    + intros K HK _. subst M. apply rne_ge; [lia | nia].
Qed.

Lemma round_pos_err (n : Z) (d : positive) :
  0 < n →
  ((n # d) * (1 - unit_roundoff) <= round_pos n d
   ∧ round_pos n d <= (n # d) * (1 + unit_roundoff))%Q.
Proof.
  intros Hn.
  destruct (round_pos_spec n d Hn) as (M & T & HT & -> & E1 & E2 & _).
  unfold unit_roundoff, Qle, Qmult, Qminus, Qplus, Qopp; cbn [Qnum Qden].
  rewrite !Pos2Z.inj_mul, !Z2Pos.id by lia.
  change (Z.pos 9007199254740992) with (2 ^ 53)%Z. split; nia.
Qed.

Lemma round_pos_le_int (n : Z) (d : positive) (K : Z) :
  0 < n → (n # d <= inject_Z K)%Q → K < 2 ^ 53 →
  (round_pos n d <= inject_Z K)%Q.
Proof.
  intros Hn HK HK53.
  destruct (round_pos_spec n d Hn) as (M & T & HT & -> & _ & _ & H & _).
  revert HK. unfold Qle; cbn [Qnum Qden inject_Z]. rewrite Z2Pos.id by lia.
  intros HK. specialize (H K ltac:(lia) HK53). lia.
Qed.

Lemma round_pos_ge_int (n : Z) (d : positive) (K : Z) :
  0 < n → (inject_Z K <= n # d)%Q → K <= 2 ^ 53 →
  (inject_Z K <= round_pos n d)%Q.
Proof.
  intros Hn HK HK53.
  destruct (round_pos_spec n d Hn) as (M & T & HT & -> & _ & _ & _ & H).
  revert HK. unfold Qle; cbn [Qnum Qden inject_Z]. rewrite Z2Pos.id by lia.
  intros HK. specialize (H K ltac:(lia) HK53). lia.
Qed.

Local Open Scope Q_scope.

Lemma round_Qeq (x y : Q) : x == y → round x = round y.
Proof. intros H. unfold round. now rewrite (Qred_complete x y H). Qed.

Lemma round_cases (x : Q) :
  (x == 0 ∧ round x = 0)
  ∨ (∃ n d, (0 < n)%Z ∧ x == n # d ∧ round x = round_pos n d)
  ∨ (∃ n d, (0 < n)%Z ∧ x == - (n # d) ∧ round x = - round_pos n d).
Proof.
  pose proof (Qred_correct x) as E. unfold round.
  destruct (Qred x) as [[|n|n] d]; cbn [Qnum Qden].
  - left. split; [|done]. rewrite <- E. reflexivity.
  - right; left. exists (Z.pos n), d. split; [lia|]. split; [|done].
    now rewrite <- E.
  - right; right. exists (Z.pos n), d. split; [lia|]. split; [|done].
    now rewrite <- E.
Qed.

Lemma Qmake_pos (n : Z) (d : positive) : (0 < n)%Z → 0 < n # d.
Proof. intros H. unfold Qlt; cbn. lia. Qed.

Lemma round_err (x : Q) :
  0 <= x →
  x * (1 - unit_roundoff) <= round x ∧ round x <= x * (1 + unit_roundoff).
Proof.
  intros Hx.
  destruct (round_cases x) as [[E ->]|[(n & d & Hn & E & ->)|(n & d & Hn & E & _)]].
  - rewrite E. split; lra.
  - rewrite E. now apply round_pos_err.
  - pose proof (Qmake_pos n d Hn). lra.
Qed.

Lemma round_le_int (x : Q) (K : Z) :
  x <= inject_Z K → (- 2 ^ 53 <= K < 2 ^ 53)%Z → round x <= inject_Z K.
Proof.
  intros Hx HK.
  destruct (round_cases x) as [[E ->]|[(n & d & Hn & E & ->)|(n & d & Hn & E & ->)]].
  - now rewrite <- E.
  - rewrite E in Hx. apply round_pos_le_int; [done..|lia].
  - pose proof (Qmake_pos n d Hn) as Hp.
    destruct (Z_lt_le_dec K 0) as [HK0|HK0].
    + assert (inject_Z (- K) <= n # d) as H'.
      { rewrite inject_Z_opp. lra. }
      apply round_pos_ge_int in H'; [|done|lia].
      rewrite inject_Z_opp in H'. lra.
    + assert (inject_Z 0 <= n # d) as H' by (change (inject_Z 0) with 0; lra).
      apply round_pos_ge_int in H'; [|done|lia].
      change (inject_Z 0) with 0 in H'.
      assert (0 <= inject_Z K) by (change 0 with (inject_Z 0); rewrite <- Zle_Qle; lia). lra.
Qed.

Lemma round_ge_int (x : Q) (K : Z) :
  inject_Z K <= x → (- 2 ^ 53 < K <= 2 ^ 53)%Z → inject_Z K <= round x.
Proof.
  intros Hx HK.
  destruct (round_cases x) as [[E ->]|[(n & d & Hn & E & ->)|(n & d & Hn & E & ->)]].
  - now rewrite <- E.
  - rewrite E in Hx. apply round_pos_ge_int; [done..|lia].
  - pose proof (Qmake_pos n d Hn) as Hp.
    assert (n # d <= inject_Z (- K)) as H'.
    { rewrite inject_Z_opp. lra. }
    apply round_pos_le_int in H'; [|done|lia].
    rewrite inject_Z_opp in H'. lra.
Qed.

Lemma round_int (x : Q) (k : Z) :
  x == inject_Z k → (- 2 ^ 53 < k < 2 ^ 53)%Z → round x == inject_Z k.
Proof.
  intros E Hk. apply Qle_antisym.
  - apply round_le_int; [rewrite E; apply Qle_refl | lia].
  - apply round_ge_int; [rewrite E; apply Qle_refl | lia].
Qed.

Lemma round_pos_lt (x : Q) : 0 < x → 0 < round x.
Proof.
  intros Hx. destruct (round_err x) as [H _]; [lra|].
  assert (0 < x * (1 - unit_roundoff)); [|lra].
  apply Qmult_lt_0_compat; [done|]. unfold unit_roundoff. reflexivity.
Qed.

Lemma round_neg_lt (x : Q) : x < 0 → round x < 0.
Proof.
  intros Hx.
  destruct (round_cases x) as [[E _]|[(n & d & Hn & E & _)|(n & d & Hn & E & ->)]].
  - lra.
  - pose proof (Qmake_pos n d Hn). lra.
  - destruct (round_pos_err n d Hn) as [H _].
    pose proof (Qmake_pos n d Hn) as Hp.
    assert (0 < (n # d) * (1 - unit_roundoff)); [|lra].
    apply Qmult_lt_0_compat; [done|]. unfold unit_roundoff. reflexivity.
Qed.

Lemma Qeq_bool_true (x y : Q) : x == y → Qeq_bool x y = true.
Proof. apply Qeq_bool_iff. Qed.

Lemma Qeq_bool_false (x y : Q) : ¬ x == y → Qeq_bool x y = false.
Proof.
  intros H. destruct (Qeq_bool x y) eqn:E; [|done].
  now apply Qeq_bool_eq in E.
Qed.

Lemma Qle_bool_true (x y : Q) : x <= y → Qle_bool x y = true.
Proof. apply Qle_bool_iff. Qed.

Lemma Qle_bool_false (x y : Q) : y < x → Qle_bool x y = false.
Proof.
  intros H. destruct (Qle_bool x y) eqn:E; [|done].
  apply Qle_bool_iff in E. lra.
Qed.

Lemma trunc_nonneg (x : Q) : 0 <= x → trunc x = Qfloor x.
Proof. intros H. unfold trunc. now rewrite Qle_bool_true. Qed.

Lemma trunc_int (x : Q) (k : Z) : x == inject_Z k → trunc x = k.
Proof.
  intros E. unfold trunc.
  destruct (Qle_bool 0 x).
  - rewrite (Qfloor_comp _ _ E). apply Qfloor_Z.
  - rewrite (Qceiling_comp _ _ E). apply Qceiling_Z.
Qed.

Lemma div_bounds (X b lo hi : Q) :
  0 < b → lo * b <= X → X <= hi * b → lo <= X / b ∧ X / b <= hi.
Proof.
  intros Hb H1 H2. split.
  - now apply Qle_shift_div_l.
  - now apply Qle_shift_div_r.
Qed.

Lemma Qfloor_bounds (x : Q) :
  inject_Z (Qfloor x) <= x ∧ x < inject_Z (Qfloor x) + 1.
Proof.
  split; [apply Qfloor_le|].
  pose proof (Qlt_floor x) as H. rewrite inject_Z_plus in H. exact H.
Qed.

Lemma Zlt_Q1 (x y : Z) : inject_Z x < inject_Z y + 1 → (x <= y)%Z.
Proof.
  change 1 with (inject_Z 1). rewrite <- inject_Z_plus, <- Zlt_Qlt. lia.
Qed.

Lemma Qfloor_unique (x : Q) (k : Z) :
  inject_Z k <= x → x < inject_Z k + 1 → Qfloor x = k.
Proof.
  intros H1 H2. destruct (Qfloor_bounds x) as [F1 F2].
  assert (inject_Z k < inject_Z (Qfloor x) + 1) as A by lra.
  assert (inject_Z (Qfloor x) < inject_Z k + 1) as B by lra.
  apply Zlt_Q1 in A, B. lia.
Qed.

(** [a // b] for [0 <= a] and [0 < b]: the steps of [npy_divmod] that are
    taken, with [Y] the rounded quotient [(a - mod) / b]. *)
Lemma floor_divide_unfold (a b : Q) :
  0 <= a → 0 < b →
  floor_divide (Fin a) (Fin b)
  = let Y := round (round (a + - (a - inject_Z (Qfloor (a / b)) * b)) / b) in
    if negb (Qeq_bool Y 0) then
      if negb (Qle_bool (round (Y + - inject_Z (Qfloor Y))) (1 # 2))
      then Fin (round (inject_Z (Qfloor Y) + 1))
      else Fin (inject_Z (Qfloor Y))
    else Fin 0.
Proof.
  intros Ha Hb.
  assert (0 <= a / b) as Hab by (apply Qle_shift_div_l; lra).
  destruct (Qfloor_bounds (a / b)) as [F1 F2].
  assert (inject_Z (Qfloor (a / b)) * b <= a) as G1.
  { assert (a == a / b * b) as E by (field; lra).
    rewrite E at 2. apply Qmult_le_compat_r; lra. }
  unfold floor_divide, npy_divmod, fmod.
  rewrite (Qeq_bool_false b 0) by lra.
  rewrite (trunc_nonneg _ Hab).
  cbn [nonzero]. rewrite (Qeq_bool_false b 0) by lra. cbn [negb].
  set (r := a - inject_Z (Qfloor (a / b)) * b).
  assert (0 <= r) as Hr by (unfold r; lra).
  cbn [isless]. rewrite (Qle_bool_true 0 b), (Qle_bool_true 0 r) by lra.
  cbn [negb Bool.eqb]. rewrite andb_false_r.
  cbn [sub neg add div]. rewrite (Qeq_bool_false b 0) by lra.
  cbn zeta. cbn [nonzero floor].
  destruct (negb (Qeq_bool _ 0)); [|done].
  cbn [sub neg add isgreater isless]. reflexivity.
Qed.

Lemma quotient_bounds (a b : Q) (k : Z) :
  0 <= a → 0 < b → Qfloor (a / b) = k → (1 <= k)%Z →
  inject_Z k * (1 - unit_roundoff) * (1 - unit_roundoff)
    <= round (round (a + - (a - inject_Z k * b)) / b)
  ∧ round (round (a + - (a - inject_Z k * b)) / b)
    <= inject_Z k * (1 + unit_roundoff) * (1 + unit_roundoff).
Proof.
  intros Ha Hb Hk Hk1.
  assert (1 <= inject_Z k) as Hk1'.
  { change 1 with (inject_Z 1). rewrite <- Zle_Qle. lia. }
  set (κ := inject_Z k) in *.
  set (X := round (a + - (a - κ * b))).
  assert (a + - (a - κ * b) == κ * b) as EX by ring.
  assert (0 < κ * b) as Hkb by (apply Qmult_lt_0_compat; lra).
  destruct (round_err (a + - (a - κ * b))) as [X1 X2]; [rewrite EX; lra|].
  fold X in X1, X2. rewrite EX in X1, X2.
  assert (κ * (1 - unit_roundoff) <= X / b
          ∧ X / b <= κ * (1 + unit_roundoff)) as [D1 D2].
  { apply div_bounds; [done| |]; lra. }
  assert (0 < κ * (1 - unit_roundoff)) as Hpos.
  { apply Qmult_lt_0_compat; [lra|]. unfold unit_roundoff. reflexivity. }
  destruct (round_err (X / b)) as [Y1 Y2]; [lra|].
  split.
  - eapply Qle_trans; [|exact Y1]. apply Qmult_le_compat_r; [done|].
    unfold unit_roundoff. discriminate.
  - eapply Qle_trans; [exact Y2|]. apply Qmult_le_compat_r; [done|].
    unfold unit_roundoff. discriminate.
Qed.

(** Below [2^50] the float floor division of a non-negative [a] by a
    positive [b] is the floor of the exact quotient. *)
Lemma floor_divide_pos (a b : Q) (k : Z) :
  0 <= a → 0 < b → Qfloor (a / b) = k → (k < 2 ^ 50)%Z →
  ∃ r, floor_divide (Fin a) (Fin b) = Fin r ∧ r == inject_Z k.
Proof.
  intros Ha Hb Hk Hk50.
  assert (0 <= a / b) as Hab by (apply Qle_shift_div_l; lra).
  assert (0 <= k)%Z as Hk0.
  { rewrite <- Hk. change 0%Z with (Qfloor 0). now apply Qfloor_resp_le. }
  rewrite floor_divide_unfold by done. rewrite Hk. cbn zeta.
  set (Y := round (round (a + - (a - inject_Z k * b)) / b)).
  destruct (Z.eq_dec k 0%Z) as [->|Hk1].
  - assert (Y = 0) as ->.
    { unfold Y. rewrite (round_Qeq (a + - (a - inject_Z 0 * b)) 0) by ring.
      rewrite (round_Qeq _ 0); [done|]. change (round 0) with 0. field. lra. }
    cbn. eexists; split; reflexivity.
  - destruct (quotient_bounds a b k Ha Hb Hk ltac:(lia)) as [Y1 Y2].
    fold Y in Y1, Y2.
    assert (1 <= inject_Z k) as Hk1'.
    { change 1 with (inject_Z 1). rewrite <- Zle_Qle. lia. }
    assert (inject_Z k <= 1125899906842623) as Hk2.
    { change 1125899906842623 with (inject_Z (2 ^ 50 - 1)).
      rewrite <- Zle_Qle. lia. }
    set (κ := inject_Z k) in *.
    assert (κ - (1 # 3) < Y ∧ Y < κ + (1 # 3)) as [Y3 Y4].
    { unfold unit_roundoff in Y1, Y2. split; lra. }
    rewrite (Qeq_bool_false Y 0) by lra. cbn [negb].
    destruct (Qfloor_bounds Y) as [FY1 FY2].
    set (f := Qfloor Y) in *.
    assert (f = k ∨ f = (k - 1)%Z) as [Hf|Hf].
    { assert (inject_Z f < κ + 1) as A by lra.
      assert (κ < inject_Z (f + 1) + 1) as B.
      { rewrite inject_Z_plus. change (inject_Z 1) with 1. lra. }
      apply Zlt_Q1 in A, B. lia. }
    + rewrite Hf in *. fold κ in FY1, FY2 |- *.
      destruct (round_err (Y + - κ)) as [_ Z2]; [lra|].
      rewrite Qle_bool_true; [|unfold unit_roundoff in Z2; lra].
      cbn [negb]. eexists; split; reflexivity.
    + rewrite Hf in *.
      assert (inject_Z (k - 1) == κ - 1) as Ek.
      { unfold κ, Qminus. replace (k - 1)%Z with (k + - 1)%Z by lia.
        rewrite inject_Z_plus. reflexivity. }
      destruct (round_err (Y + - inject_Z (k - 1))) as [Z1 _]; [lra|].
      rewrite Qle_bool_false; [|unfold unit_roundoff in Z1; lra].
      cbn [negb]. eexists; split; [reflexivity|].
      apply round_int; [|lia]. rewrite Ek. unfold κ. ring.
Qed.

(** Whenever [b <= a] the float floor division gives at least one. *)
Lemma floor_divide_ge1 (a b : Q) :
  0 < b → b <= a →
  ∃ r, floor_divide (Fin a) (Fin b) = Fin r ∧ 1 <= r.
Proof.
  intros Hb Hba.
  assert (1 <= a / b) as Hab by (apply Qle_shift_div_l; lra).
  assert (1 <= Qfloor (a / b))%Z as Hk1.
  { change 1%Z with (Qfloor 1). now apply Qfloor_resp_le. }
  destruct (Z_lt_le_dec (Qfloor (a / b)) (2 ^ 50)) as [Hk|Hk].
  - destruct (floor_divide_pos a b _ ltac:(lra) Hb eq_refl Hk) as (r & -> & Er).
    exists r. split; [done|]. rewrite Er.
    change 1 with (inject_Z 1). rewrite <- Zle_Qle. lia.
  - rewrite floor_divide_unfold by lra. cbn zeta.
    destruct (quotient_bounds a b _ ltac:(lra) Hb eq_refl Hk1) as [Y1 _].
    set (Y := round (round (a + - (a - inject_Z (Qfloor (a / b)) * b)) / b))
      in *.
    assert (1125899906842624 <= inject_Z (Qfloor (a / b))) as Hk'.
    { change 1125899906842624 with (inject_Z (2 ^ 50)).
      rewrite <- Zle_Qle. lia. }
    assert (2 <= Y) as HY by (unfold unit_roundoff in Y1; lra).
    rewrite (Qeq_bool_false Y 0) by lra. cbn [negb].
    assert (2 <= Qfloor Y)%Z as Hf.
    { change 2%Z with (Qfloor 2). now apply Qfloor_resp_le. }
    assert (2 <= inject_Z (Qfloor Y)) as Hf'.
    { change 2 with (inject_Z 2). rewrite <- Zle_Qle. lia. }
    destruct (negb (Qle_bool _ (1 # 2))).
    + eexists; split; [reflexivity|].
      change 1 with (inject_Z 1). apply round_ge_int; [|lia].
      change (inject_Z 1) with 1. lra.
    + eexists; split; [reflexivity|]. lra.
Qed.
End Rounding.

(** ** The number of voxel groups in exact arithmetic *)

Section GroupCount.
Local Open Scope Z_scope.

Lemma wrap_small w z :
  0 < w → - 2 ^ (w - 1) <= z < 2 ^ (w - 1) → Np.wrap w z = z.
Proof.
  intros Hw Hz. unfold Np.wrap.
  assert (2 ^ w = 2 * 2 ^ (w - 1)) as Hp.
  { rewrite <- Z.pow_succ_r by lia. f_equal. lia. }
  rewrite Z.mod_small; lia.
Qed.



(** A voxel group only holds voxels of the block. *)
Lemma voxelGroups_subseteq (MAXMEM q : Z) (bamInds : list nat) gs g :
  voxelGroups MAXMEM q bamInds = Some gs → g ∈ gs → g ⊆ bamInds.
Proof.
  unfold voxelGroups. destruct (nvg MAXMEM q bamInds) as [k|]; [|discriminate].
  cbn. apply array_split_subseteq.
Qed.
End GroupCount.

(** ** The group count in double precision *)

Section GroupCountF64.
Import F64.
Local Open Scope Q_scope.

Lemma int64_divisor (q : Z) :
  (1 <= q)%Z → (10 * 8 * q ^ 2 < 2 ^ 63)%Z →
  Np.int64 (10 * 8 * Np.int64 (q ^ 2)) = (10 * 8 * q ^ 2)%Z.
Proof.
  intros Hq Hd. unfold Np.int64.
  assert (0 < q ^ 2)%Z by nia.
  now rewrite (wrap_small 64 (q ^ 2)), (wrap_small 64) by lia.
Qed.

Lemma inject_Z_pos (z : Z) : (0 < z)%Z → 0 < inject_Z z.
Proof. intros H. change 0 with (inject_Z 0). now rewrite <- Zlt_Qlt. Qed.

Lemma inject_Z_nonneg (z : Z) : (0 <= z)%Z → 0 <= inject_Z z.
Proof. intros H. change 0 with (inject_Z 0). now rewrite <- Zle_Qle. Qed.

Lemma Qfloor_inject_div (a b : Z) :
  (0 < b)%Z → Qfloor (inject_Z a / inject_Z b) = (a / b)%Z.
Proof.
  intros Hb.
  assert (inject_Z a / inject_Z b == a # Z.to_pos b) as E.
  { rewrite Qmake_Qdiv, Z2Pos.id by lia. reflexivity. }
  rewrite (Qfloor_comp _ _ E). cbn. now rewrite Z2Pos.id.
Qed.

(** [nvb] is a finite double for [q >= 1]. *)
Lemma nvb_f64_Fin (MAXMEM q : Z) :
  (1 <= q)%Z → (10 * 8 * q ^ 2 < 2 ^ 63)%Z →
  nvb_f64 MAXMEM q
  = Fin (round (round (inject_Z MAXMEM) / round (inject_Z (10 * 8 * q ^ 2)))).
Proof.
  intros Hq Hd. unfold nvb_f64. rewrite int64_divisor by done.
  unfold of_int, div.
  assert (0 < round (inject_Z (10 * 8 * q ^ 2))) as Hpos.
  { apply round_pos_lt, inject_Z_pos. nia. }
  rewrite Qeq_bool_false; [done|]. lra.
Qed.

(** Below [2^53] the budget and the divisor are doubles, and [nvb] is their
    quotient rounded once. *)
Lemma nvb_f64_bounds (MAXMEM q : Z) :
  (0 < MAXMEM < 2 ^ 53)%Z → (1 <= q)%Z → (10 * 8 * q ^ 2 < 2 ^ 53)%Z →
  ∃ b, nvb_f64 MAXMEM q = Fin b ∧ 0 < b
     ∧ inject_Z MAXMEM / inject_Z (10 * 8 * q ^ 2) * (1 - unit_roundoff) <= b
     ∧ b <= inject_Z MAXMEM / inject_Z (10 * 8 * q ^ 2) * (1 + unit_roundoff)
     ∧ ((10 * 8 * q ^ 2 | MAXMEM)%Z
        → b == inject_Z (MAXMEM / (10 * 8 * q ^ 2))).
Proof.
  intros HB Hq Hd. rewrite nvb_f64_Fin by lia.
  assert (0 < 10 * 8 * q ^ 2)%Z as Hd0 by nia.
  revert Hd Hd0. generalize (10 * 8 * q ^ 2)%Z. intros d Hd Hd0.
  pose proof (round_int (inject_Z MAXMEM) MAXMEM (Qeq_refl _) ltac:(lia)) as EM.
  pose proof (round_int (inject_Z d) d (Qeq_refl _) ltac:(lia)) as Ed.
  pose proof (inject_Z_pos MAXMEM ltac:(lia)) as HM.
  pose proof (inject_Z_pos d Hd0) as Hdq.
  set (x := round (inject_Z MAXMEM) / round (inject_Z d)).
  assert (x == inject_Z MAXMEM / inject_Z d) as Ex.
  { unfold x. now rewrite EM, Ed. }
  assert (0 < inject_Z MAXMEM / inject_Z d) as Hx.
  { apply Qlt_shift_div_l; lra. }
  eexists. split; [reflexivity|]. split; [apply round_pos_lt; lra|].
  destruct (round_err x) as [R1 R2]; [lra|].
  split; [|split].
  { set (y := inject_Z MAXMEM / inject_Z d) in *.
    unfold unit_roundoff in *. lra. }
  { set (y := inject_Z MAXMEM / inject_Z d) in *.
    unfold unit_roundoff in *. lra. }
  intros [c Hc]. apply round_int.
  - rewrite Ex, Hc, Z.div_mul by lia. rewrite inject_Z_mult. field. lra.
  - subst MAXMEM. rewrite Z.div_mul by lia. nia.
Qed.

(** The count when the float floor division is exact. *)
Lemma nvg_f64_floor (MAXMEM q : Z) (bamInds : list nat) (b : Q) :
  nvb_f64 MAXMEM q = Fin b → 0 < b →
  (Z.of_nat (length bamInds) < 2 ^ 53)%Z →
  (Qfloor (inject_Z (Z.of_nat (length bamInds)) / b) < 2 ^ 50)%Z →
  nvg_f64 MAXMEM q bamInds
  = Some (Qfloor (inject_Z (Z.of_nat (length bamInds)) / b) + 1)%Z.
Proof.
  intros Hb Hpos Hlen Hk. unfold nvg_f64. rewrite Hb. unfold of_int.
  set (len := Z.of_nat (length bamInds)) in *.
  set (a := round (inject_Z len)).
  assert (a == inject_Z len) as Ea by (apply round_int; [reflexivity|lia]).
  pose proof (inject_Z_nonneg len ltac:(lia)) as Hl.
  assert (0 <= Qfloor (inject_Z len / b))%Z as Hk0.
  { change 0%Z with (Qfloor 0). apply Qfloor_resp_le.
    apply Qle_shift_div_l; lra. }
  destruct (floor_divide_pos a b (Qfloor (inject_Z len / b)))
    as (r & -> & Er); [lra | done | | done |].
  { apply Qfloor_comp. now rewrite Ea. }
  cbn [add to_int]. f_equal. apply trunc_int. apply round_int; [|lia].
  rewrite Er, inject_Z_plus. reflexivity.
Qed.

(** The count when the block is not smaller than [nvb]. *)
Lemma nvg_f64_ge2 (MAXMEM q : Z) (bamInds : list nat) (b : Q) :
  nvb_f64 MAXMEM q = Fin b → 0 < b →
  b <= round (inject_Z (Z.of_nat (length bamInds))) →
  ∃ k, nvg_f64 MAXMEM q bamInds = Some k ∧ (2 <= k)%Z.
Proof.
  intros Hb Hpos Hba. unfold nvg_f64. rewrite Hb. unfold of_int.
  destruct (floor_divide_ge1 _ b Hpos Hba) as (r & -> & Hr).
  cbn [add to_int]. eexists. split; [reflexivity|].
  assert (inject_Z 2 <= round (r + 1)) as H2.
  { apply round_ge_int; [|lia]. change (inject_Z 2) with 2. lra. }
  change (inject_Z 2) with 2 in H2.
  rewrite trunc_nonneg by lra.
  change 2%Z with (Qfloor 2). now apply Qfloor_resp_le.
Qed.

(** A block that fits the budget: one group. *)
Lemma nvg_f64_one (MAXMEM q : Z) (bamInds : list nat) :
  (0 < MAXMEM < 2 ^ 53)%Z → (1 <= q)%Z → (10 * 8 * q ^ 2 < 2 ^ 63)%Z →
  (Z.of_nat (length bamInds) * (10 * 8 * q ^ 2) < MAXMEM)%Z →
  nvg_f64 MAXMEM q bamInds = Some 1%Z.
Proof.
  intros HB Hq Hd Hlt.
  pose proof (nvb_f64_Fin MAXMEM q Hq Hd) as Hb.
  assert (0 < 10 * 8 * q ^ 2)%Z as Hd0 by nia.
  revert Hd Hd0 Hlt Hb. generalize (10 * 8 * q ^ 2)%Z. intros d Hd Hd0 Hlt Hb.
  set (len := Z.of_nat (length bamInds)) in *.
  assert (0 <= len)%Z as Hlen0 by lia.
  assert (len < 2 ^ 53)%Z as Hlen by nia.
  pose proof (round_int (inject_Z MAXMEM) MAXMEM (Qeq_refl _) ltac:(lia)) as EM.
  pose proof (inject_Z_pos MAXMEM ltac:(lia)) as HM.
  pose proof (inject_Z_pos d Hd0) as Hdq.
  pose proof (round_pos_lt _ Hdq) as Hrd.
  set (b := round (round (inject_Z MAXMEM) / round (inject_Z d))) in *.
  assert (0 < round (inject_Z MAXMEM) / round (inject_Z d)) as Hx.
  { apply Qlt_shift_div_l; lra. }
  assert (0 < b) as Hbpos by (apply round_pos_lt; exact Hx).
  assert (inject_Z len < b) as Hlb.
  { destruct (Z.eq_dec len 0%Z) as [E0|Hne]; [rewrite E0; exact Hbpos|].
    assert (d < 2 ^ 53)%Z as Hd53 by nia.
    pose proof (round_int (inject_Z d) d (Qeq_refl _) ltac:(lia)) as Ed.
    destruct (round_err _ (Qlt_le_weak _ _ Hx)) as [R1 _]. fold b in R1.
    assert (round (inject_Z MAXMEM) / round (inject_Z d)
            == inject_Z MAXMEM / inject_Z d) as Ex by now rewrite EM, Ed.
    apply Qlt_le_trans
      with (inject_Z MAXMEM / inject_Z d * (1 - unit_roundoff));
      [|set (y := inject_Z MAXMEM / inject_Z d) in *;
        unfold unit_roundoff in *; lra].
    assert (inject_Z MAXMEM / inject_Z d * (1 - unit_roundoff)
            == inject_Z MAXMEM * (1 - unit_roundoff) / inject_Z d) as ->.
    { field. lra. }
    apply Qlt_shift_div_l; [done|].
    assert (inject_Z len * inject_Z d + 1 <= inject_Z MAXMEM) as H1.
    { change 1 with (inject_Z 1).
      rewrite <- inject_Z_mult, <- inject_Z_plus, <- Zle_Qle. lia. }
    assert (inject_Z MAXMEM < 9007199254740992) as H2.
    { change 9007199254740992 with (inject_Z (2 ^ 53)).
      rewrite <- Zlt_Qlt. lia. }
    set (p := inject_Z len * inject_Z d) in *.
    unfold unit_roundoff. lra. }
  assert (Qfloor (inject_Z len / b) = 0%Z) as Hk.
  { apply Qfloor_unique.
    - apply Qle_shift_div_l; [done|]. pose proof (inject_Z_nonneg len Hlen0).
      change (inject_Z 0) with 0. lra.
    - change (inject_Z 0 + 1) with 1.
      apply Qlt_shift_div_r; [done|]. lra. }
  rewrite (nvg_f64_floor MAXMEM q bamInds b Hb Hbpos Hlen); fold len.
  - now rewrite Hk.
  - rewrite Hk. lia.
Qed.

(** A block that does not fit the budget: at least two groups. *)
Lemma nvg_f64_two (MAXMEM q : Z) (bamInds : list nat) :
  (0 < MAXMEM < 2 ^ 53)%Z → (1 <= q)%Z → (10 * 8 * q ^ 2 < 2 ^ 63)%Z →
  (MAXMEM <= Z.of_nat (length bamInds) * (10 * 8 * q ^ 2))%Z →
  ∃ k, nvg_f64 MAXMEM q bamInds = Some k ∧ (2 <= k)%Z.
Proof.
  intros HB Hq Hd Hge.
  pose proof (nvb_f64_Fin MAXMEM q Hq Hd) as Hb.
  assert (0 < 10 * 8 * q ^ 2)%Z as Hd0 by nia.
  revert Hd Hd0 Hge Hb. generalize (10 * 8 * q ^ 2)%Z. intros d Hd Hd0 Hge Hb.
  set (len := Z.of_nat (length bamInds)) in *.
  assert (1 <= len)%Z as Hlen1 by nia.
  pose proof (round_int (inject_Z MAXMEM) MAXMEM (Qeq_refl _) ltac:(lia)) as EM.
  pose proof (inject_Z_pos MAXMEM ltac:(lia)) as HM.
  pose proof (inject_Z_pos d Hd0) as Hdq.
  pose proof (round_pos_lt _ Hdq) as Hrd.
  assert (inject_Z MAXMEM <= 9007199254740991) as HM53.
  { change 9007199254740991 with (inject_Z (2 ^ 53 - 1)).
    rewrite <- Zle_Qle. lia. }
  assert (1 <= round (inject_Z d)) as Hrd1.
  { change 1 with (inject_Z 1). apply round_ge_int; [|lia].
    rewrite <- Zle_Qle. lia. }
  set (rd := round (inject_Z d)) in *.
  set (b := round (round (inject_Z MAXMEM) / rd)) in *.
  assert (0 < round (inject_Z MAXMEM) / rd) as Hx.
  { apply Qlt_shift_div_l; lra. }
  assert (0 < b) as Hbpos by (apply round_pos_lt; exact Hx).
  apply (nvg_f64_ge2 MAXMEM q bamInds b Hb Hbpos). fold len.
  destruct (Z_lt_le_dec len (2 ^ 53)) as [Hlen|Hlen].
  - pose proof (round_int (inject_Z len) len (Qeq_refl _) ltac:(lia)) as El.
    rewrite El. apply round_le_int; [|lia].
    apply Qle_shift_div_r; [done|]. rewrite EM.
    pose proof (inject_Z_pos len ltac:(lia)) as Hl.
    assert (1 <= inject_Z len) as Hl1.
    { change 1 with (inject_Z 1). rewrite <- Zle_Qle. lia. }
    destruct (Z_lt_le_dec d (2 ^ 53)) as [Hd53|Hd53].
    + pose proof (round_int (inject_Z d) d (Qeq_refl _) ltac:(lia)) as Ed.
      fold rd in Ed. rewrite Ed, <- inject_Z_mult, <- Zle_Qle. exact Hge.
    + assert (inject_Z (2 ^ 53) <= rd) as Hrd53.
      { apply round_ge_int; [|lia]. rewrite <- Zle_Qle. lia. }
      change (inject_Z (2 ^ 53)) with 9007199254740992 in Hrd53.
      assert (1 * rd <= inject_Z len * rd) as Hmul.
      { apply Qmult_le_compat_r; lra. }
      lra.
  - assert (inject_Z (2 ^ 53) <= round (inject_Z len)) as Ha.
    { apply round_ge_int; [|lia]. rewrite <- Zle_Qle. lia. }
    change (inject_Z (2 ^ 53)) with 9007199254740992 in Ha.
    assert (b <= inject_Z (2 ^ 53 - 1)) as Hbb.
    { apply round_le_int; [|lia].
      change (inject_Z (2 ^ 53 - 1)) with 9007199254740991.
      apply Qle_shift_div_r; [lra|]. rewrite EM.
      assert (9007199254740991 * 1 <= 9007199254740991 * rd) as Hmul.
      { apply Qmult_le_l; [reflexivity | exact Hrd1]. }
      lra. }
    change (inject_Z (2 ^ 53 - 1)) with 9007199254740991 in Hbb. lra.
Qed.

(** The groups of the float count are pieces of the block too. *)
Lemma voxelGroups_f64_concat (MAXMEM q : Z) (bamInds : list nat) gs :
  voxelGroups_f64 MAXMEM q bamInds = Some gs → concat gs = bamInds.
Proof.
  unfold voxelGroups_f64.
  destruct (nvg_f64 MAXMEM q bamInds) as [k|]; [|discriminate].
  cbn [mbind option_bind]. intros E.
  destruct (Z_lt_le_dec 0 k) as [Hk|Hk].
  - destruct (array_split_spec bamInds k Hk) as (gs' & Hgs & _ & Hcat & _).
    rewrite E in Hgs. now injection Hgs as <-.
  - unfold Np.array_split in E. rewrite (proj2 (Z.leb_le k 0) Hk) in E.
    discriminate.
Qed.
End GroupCountF64.

(** C1 (as stated): the group count is [ceil(|bamInds| / floor(B/(10*8*q^2)))],
    4 groups for q = 50, B = 10*8*50^2*250 and 1000 voxels.  On that input the
    code computes [nvb = 250.0], [1000 // 250.0 + 1 = 5.0] and splits the
    block into 5 groups, one more than the stated count. *)
Lemma C1_group_count_counterexample :
  spec_group_count (10 * 8 * 50 ^ 2 * 250) 50 (seq 0 1000) = 4%Z
  ∧ (∃ nvb, nvb_f64 (10 * 8 * 50 ^ 2 * 250) 50 = F64.Fin nvb
          ∧ (nvb == 250)%Q)
  ∧ nvg_f64 (10 * 8 * 50 ^ 2 * 250) 50 (seq 0 1000) = Some 5%Z
  ∧ ∃ gs, voxelGroups_f64 (10 * 8 * 50 ^ 2 * 250) 50 (seq 0 1000) = Some gs
        ∧ length gs = 5
        ∧ Z.of_nat (length gs)
          ≠ spec_group_count (10 * 8 * 50 ^ 2 * 250) 50 (seq 0 1000).
Proof.
  split; [reflexivity|].
  split; [eexists; split; [vm_compute; reflexivity | reflexivity]|].
  split; [vm_compute; reflexivity|].
  eexists. split; [vm_compute; reflexivity|].
  split; [reflexivity|]. vm_compute. discriminate.
Qed.

(** C1 (amended): for a memory budget [0 < MAXMEM < 2^53], [q >= 1] with
    [10*8*q^2 < 2^53] and a block [bamInds] of fewer than [2^53] voxels with
    [|bamInds| * 10*8*q^2 < 2^49 * MAXMEM], the block is split into exactly
    [floor(|bamInds| / nvb) + 1] groups, where [nvb] is the float64 quotient
    [MAXMEM/(10*8*q^2)], not rounded down to a whole number: it lies within
    the relative error [2^-53] of the exact quotient and equals it when
    [10*8*q^2] divides [MAXMEM], in which case the count is
    [floor(|bamInds| / (MAXMEM/(10*8*q^2))) + 1].  The groups are
    consecutive pieces of [bamInds] (their concatenation is [bamInds], so
    they cover it without overlap) and the first [|bamInds| mod nvg] of them
    hold one voxel more than the others. *)
Theorem C1_voxelGroups_count (MAXMEM q : Z) (bamInds : list nat) :
  (0 < MAXMEM < 2 ^ 53)%Z → (1 ≤ q)%Z → (10 * 8 * q ^ 2 < 2 ^ 53)%Z →
  (Z.of_nat (length bamInds) < 2 ^ 53)%Z →
  (Z.of_nat (length bamInds) * (10 * 8 * q ^ 2) < 2 ^ 49 * MAXMEM)%Z →
  ∃ (nvb : Q) (gs : list (list nat)) (nvg : nat),
    nvb_f64 MAXMEM q = F64.Fin nvb
    ∧ (inject_Z MAXMEM / inject_Z (10 * 8 * q ^ 2) * (1 - F64.unit_roundoff)
       <= nvb)%Q
    ∧ (nvb
       <= inject_Z MAXMEM / inject_Z (10 * 8 * q ^ 2) * (1 + F64.unit_roundoff))%Q
    ∧ ((10 * 8 * q ^ 2 | MAXMEM)%Z
       → (nvb == inject_Z (MAXMEM / (10 * 8 * q ^ 2)))%Q)
    ∧ voxelGroups_f64 MAXMEM q bamInds = Some gs
    ∧ Z.of_nat nvg
      = (Qfloor (inject_Z (Z.of_nat (length bamInds)) / nvb) + 1)%Z
    ∧ ((10 * 8 * q ^ 2 | MAXMEM)%Z
       → Z.of_nat nvg
         = (Z.of_nat (length bamInds) / (MAXMEM / (10 * 8 * q ^ 2)) + 1)%Z)
    ∧ length gs = nvg
    ∧ concat gs = bamInds
    ∧ map length gs =
        replicate (length bamInds mod nvg) (length bamInds / nvg + 1)
        ++ replicate (nvg - length bamInds mod nvg) (length bamInds / nvg).
Proof.
  intros HB Hq Hd Hlen53 Hlen.
  destruct (nvb_f64_bounds MAXMEM q HB Hq Hd) as (b & Hb & Hpos & B1 & B2 & Hex).
  assert (0 < 10 * 8 * q ^ 2)%Z as Hd0 by nia.
  revert Hd Hd0 Hlen B1 B2 Hex. generalize (10 * 8 * q ^ 2)%Z.
  intros d Hd Hd0 Hlen B1 B2 Hex.
  set (len := Z.of_nat (length bamInds)) in *.
  assert (0 ≤ len)%Z as Hlen0 by lia.
  pose proof (inject_Z_pos MAXMEM ltac:(lia)) as HM.
  pose proof (inject_Z_pos d Hd0) as Hdq.
  pose proof (inject_Z_nonneg len Hlen0) as Hl.
  set (k := Qfloor (inject_Z len / b)).
  assert (0 ≤ k)%Z as Hk0.
  { unfold k. change 0%Z with (Qfloor 0). apply Qfloor_resp_le.
    apply Qle_shift_div_l; lra. }
  assert (k < 2 ^ 50)%Z as Hk50.
  { assert (inject_Z k < inject_Z (2 ^ 50))%Q as H; [|now rewrite <- Zlt_Qlt in H].
    eapply Qle_lt_trans; [apply Qfloor_le|].
    apply Qlt_shift_div_r; [done|].
    eapply Qlt_le_trans; [|apply Qmult_le_l; [reflexivity | exact B1]].
    assert (inject_Z len * inject_Z d
            < inject_Z (2 ^ 49) * inject_Z MAXMEM)%Q as H.
    { rewrite <- !inject_Z_mult, <- Zlt_Qlt. exact Hlen. }
    change (inject_Z (2 ^ 49)) with 562949953421312%Q in H.
    change (inject_Z (2 ^ 50)) with 1125899906842624%Q.
    assert (1125899906842624
              * (inject_Z MAXMEM / inject_Z d * (1 - F64.unit_roundoff))
            == 1125899906842624 * (1 - F64.unit_roundoff) * inject_Z MAXMEM
               / inject_Z d)%Q as ->.
    { field. lra. }
    apply Qlt_shift_div_l; [done|].
    set (p := (inject_Z len * inject_Z d)%Q) in *.
    unfold F64.unit_roundoff. lra. }
  pose proof (nvg_f64_floor MAXMEM q bamInds b Hb Hpos Hlen53 Hk50) as Hnvg.
  fold len in Hnvg. fold k in Hnvg.
  unfold voxelGroups_f64. rewrite Hnvg. cbn [mbind option_bind].
  destruct (array_split_spec bamInds (k + 1) ltac:(lia))
    as (gs & Hgs & Hlgs & Hcat & Hsz).
  exists b, gs, (Z.to_nat (k + 1)).
  split; [done|]. split; [done|]. split; [done|]. split; [done|].
  split; [done|]. split; [lia|]. split; [|done].
  intros Hdiv. rewrite Z2Nat.id by lia. f_equal. unfold k.
  specialize (Hex Hdiv). rewrite (Qfloor_comp _ _ (Qdiv_comp _ _ (Qeq_refl _) _ _ Hex)).
  apply Qfloor_inject_div.
  destruct Hdiv as [c ->]. rewrite Z.div_mul by lia. nia.
Qed.

(** The amended count on the input of the specification's example: 5 groups
    of 200 voxels. *)
Lemma C1_voxelGroups_count_witness :
  ∃ gs, voxelGroups_f64 (10 * 8 * 50 ^ 2 * 250) 50 (seq 0 1000) = Some gs
      ∧ length gs = 5
      ∧ concat gs = seq 0 1000
      ∧ map length gs = [200; 200; 200; 200; 200].
Proof.
  destruct (C1_voxelGroups_count (10 * 8 * 50 ^ 2 * 250) 50 (seq 0 1000))
    as (b & gs & k & _ & _ & _ & _ & Hgs & _ & Hk & Hlen & Hcat & Hsz);
    [lia | lia | lia | vm_compute; reflexivity | vm_compute; reflexivity |].
  assert (k = 5) as ->.
  { apply Nat2Z.inj. rewrite Hk; [vm_compute; reflexivity|].
    exists 250%Z. reflexivity. }
  exists gs. repeat split; assumption.
Defined.

(** ** Positions, sorting and ranks *)

Section Positions.
Implicit Types (cond : list bool) (l : list nat).

Lemma elem_of_where_from cond : ∀ i x,
  x ∈ Np.where_from i cond ↔ i ≤ x ∧ cond !! (x - i) = Some true.
Proof.
  induction cond as [|b t IH]; intros i x; cbn.
  - split; [inversion 1 | intros [_ ?]; discriminate].
  - assert (x ∈ Np.where_from (S i) t
            ↔ i < x ∧ (b :: t) !! (x - i) = Some true) as Htl.
    { rewrite IH. split; intros [Hle Hx]; (split; [lia|]).
      - replace (x - i) with (S (x - S i)) by lia. exact Hx.
      - replace (x - i) with (S (x - S i)) in Hx by lia. exact Hx. }
    destruct b.
    + rewrite elem_of_cons, Htl. split.
      * intros [-> | [? ?]]; [|split; [lia|done]].
        split; [lia|]. now rewrite Nat.sub_diag.
      * intros [Hle Hx]. destruct (decide (x = i)) as [->|]; [now left|].
        right. split; [lia|done].
    + rewrite Htl. split; [intros [? ?]; split; [lia|done]|].
      intros [Hle Hx]. split; [|done].
      destruct (decide (x = i)) as [->|]; [|lia].
      rewrite Nat.sub_diag in Hx. discriminate.
Qed.

Lemma elem_of_where cond x : x ∈ Np.where_ cond ↔ cond !! x = Some true.
Proof.
  unfold Np.where_. rewrite elem_of_where_from, Nat.sub_0_r.
  split; [tauto | split; [lia | done]].
Qed.

Lemma where_from_sorted cond : ∀ i, StronglySorted lt (Np.where_from i cond).
Proof.
  induction cond as [|b t IH]; intros i; cbn; [constructor|].
  destruct b; [|apply IH].
  constructor; [apply IH|].
  apply Forall_forall. intros x Hx.
  apply elem_of_where_from in Hx. lia.
Qed.

Lemma sorted_lt_le l : StronglySorted lt l → StronglySorted le l.
Proof.
  induction 1 as [|x t Ht IH Hx]; constructor; [done|].
  eapply Forall_impl; [exact Hx | cbn; lia].
Qed.

Lemma sorted_lt_NoDup l : StronglySorted lt l → NoDup l.
Proof.
  induction 1 as [|x t Ht IH Hx]; constructor; [|done].
  intros Hin. rewrite Forall_forall in Hx. specialize (Hx x Hin). lia.
Qed.

Lemma sorted_filter (P : nat → Prop) `{!∀ x, Decision (P x)} l :
  StronglySorted lt l → StronglySorted lt (filter P l).
Proof.
  induction 1 as [|x t Ht IH Hx]; [constructor|].
  rewrite filter_cons. destruct (decide (P x)); [|done].
  constructor; [done|]. rewrite Forall_forall in Hx |- *.
  intros y Hy. apply list_elem_of_filter in Hy as [_ Hy]. now apply Hx.
Qed.

(** [np.sort] leaves an ascending array as it is. *)
Lemma sort_sorted l : StronglySorted le l → Np.sort l = l.
Proof.
  induction 1 as [|x t Ht IH Hx]; [done|].
  unfold Np.sort in *. cbn. rewrite IH.
  destruct t as [|y t']; [done|]. cbn.
  apply Forall_cons in Hx as [Hxy _].
  now apply Nat.leb_le in Hxy as ->.
Qed.

Lemma insert_keyed_sorted (ps : list (nat * nat)) :
  StronglySorted le ps.*1 → foldr Np.insert_keyed [] ps = ps.
Proof.
  induction ps as [|p t IH]; [done|]. cbn. intros Hs.
  apply StronglySorted_cons in Hs as [Hp Ht]. rewrite IH by done.
  destruct t as [|y t']; [done|]. cbn in *.
  apply Forall_cons in Hp as [Hpy _].
  now apply Nat.leb_le in Hpy as ->.
Qed.

(** [np.argsort] of an ascending array is [0, 1, ..., len-1]. *)
Lemma argsort_sorted l :
  StronglySorted le l → Np.argsort l = seq 0 (length l).
Proof.
  intros Hs. unfold Np.argsort.
  rewrite insert_keyed_sorted.
  - apply snd_zip. now rewrite length_seq.
  - rewrite fst_zip by now rewrite length_seq. done.
Qed.

Lemma seq_sorted : ∀ k i, StronglySorted le (seq i k).
Proof.
  intros k. induction k as [|k IH]; intros i; cbn; constructor; [apply IH|].
  apply Forall_forall. intros x Hx. apply elem_of_seq in Hx. lia.
Qed.

(** The double argsort of an ascending array is the identity ranking. *)
Lemma argsort_argsort_sorted l :
  StronglySorted le l → Np.argsort (Np.argsort l) = seq 0 (length l).
Proof.
  intros Hs. rewrite (argsort_sorted l Hs), argsort_sorted by apply seq_sorted.
  now rewrite length_seq.
Qed.

Lemma take_at_seq {A} (W : list A) : Np.take_at W (seq 0 (length W)) = Some W.
Proof.
  unfold Np.take_at. apply mapM_Some, Forall2_lookup. intros i.
  destruct (W !! i) as [x|] eqn:E.
  - rewrite lookup_seq_lt by (eapply lookup_lt_Some; eauto).
    constructor. done.
  - rewrite lookup_seq_ge by (eapply lookup_ge_None; eauto). constructor.
Qed.

(** The positions in [amInds] of its elements that belong to [inds]. *)
Lemma where_in1d (amInds inds : list nat) : ∀ i0,
  Forall2 (λ j x, i0 ≤ j ∧ amInds !! (j - i0) = Some x)
          (Np.where_from i0 (Np.in1d amInds inds))
          (filter (.∈ inds) amInds).
Proof.
  induction amInds as [|a t IH]; intros i0; cbn; [constructor|].
  assert (Forall2 (λ j x, i0 ≤ j ∧ (a :: t) !! (j - i0) = Some x)
            (Np.where_from (S i0) (Np.in1d t inds)) (filter (.∈ inds) t))
    as Htl.
  { eapply Forall2_impl; [apply (IH (S i0))|]. cbn. intros j x [Hj Hx].
    split; [lia|]. replace (j - i0) with (S (j - S i0)) by lia. exact Hx. }
  destruct (decide (a ∈ inds)) as [Hin|Hin].
  - rewrite bool_decide_eq_true_2 by done. constructor; [|exact Htl].
    split; [lia|]. now rewrite Nat.sub_diag.
  - rewrite bool_decide_eq_false_2 by done. exact Htl.
Qed.

(** In an ascending array without repetition, selecting the elements of an
    ascending sub-array gives that sub-array. *)
Lemma filter_sorted_subset (amInds inds : list nat) :
  StronglySorted lt amInds → StronglySorted lt inds → inds ⊆ amInds →
  filter (.∈ inds) amInds = inds.
Proof.
  intros Ha Hi Hsub.
  apply (StronglySorted_unique_strong lt).
  - intros; lia.
  - now apply sorted_filter.
  - done.
  - apply NoDup_Permutation.
    + apply sorted_lt_NoDup. now apply sorted_filter.
    + now apply sorted_lt_NoDup.
    + intros x. rewrite list_elem_of_filter. split; [tauto|].
      intros Hx. split; [done|]. now apply Hsub.
Qed.
End Positions.

(** ** Ring and inner voxels of a group *)

Section RingInner.
Variables (v : nat) (Mask n_sv : list Z) (n : Z) (bamInds_cv : list nat).

Lemma Mask_cv_lookup x m :
  Mask_cv v Mask bamInds_cv !! x = Some m ↔
  x < v ∧ ∃ m0, Mask !! x = Some m0
              ∧ m = if bool_decide (x ∈ bamInds_cv) then m0 else 0%Z.
Proof.
  unfold Mask_cv, Np.in1d. rewrite lookup_zip_with_Some. split.
  - intros (keep & m0 & -> & Hk & Hm).
    apply list_lookup_fmap_Some in Hk as (y & -> & Hy).
    apply lookup_seq in Hy as [-> Hlt]. cbn.
    split; [done|]. exists m0. split; [done|]. now destruct (bool_decide _).
  - intros (Hlt & m0 & Hm & ->).
    exists (bool_decide (x ∈ bamInds_cv)), m0. split_and!; [|idtac|done].
    + now destruct (bool_decide _).
    + apply list_lookup_fmap_Some. exists x. split; [done|].
      now apply lookup_seq.
Qed.

(** The voxels of the group that the mask keeps. *)
Lemma Mask_cv_one x :
  Mask_cv v Mask bamInds_cv !! x = Some 1%Z ↔
  x < v ∧ x ∈ bamInds_cv ∧ Mask !! x = Some 1%Z.
Proof.
  rewrite Mask_cv_lookup. split.
  - intros (Hlt & m0 & Hm & Hone). case_bool_decide; [|discriminate].
    subst m0. done.
  - intros (Hlt & Hin & Hm). split; [done|]. exists 1%Z.
    now rewrite bool_decide_eq_true_2.
Qed.

Lemma elem_of_masked_where (test : Z → bool) (M : list Z) x :
  x ∈ Np.sort (Np.where_ (zip_with andb (map (λ m, m =? 1)%Z M)
                                        (map test n_sv))) ↔
  M !! x = Some 1%Z ∧ ∃ k, n_sv !! x = Some k ∧ test k = true.
Proof.
  rewrite sort_sorted by apply sorted_lt_le, where_from_sorted.
  rewrite elem_of_where, lookup_zip_with_Some. split.
  - intros (a & b & Hab & Ha & Hb).
    apply list_lookup_fmap_Some in Ha as (m & -> & Hm).
    apply list_lookup_fmap_Some in Hb as (k & -> & Hk).
    symmetry in Hab. apply andb_true_iff in Hab as [H1 H2].
    apply Z.eqb_eq in H1 as ->. eauto.
  - intros (Hm & k & Hk & Ht). exists true, true. split_and!; [done| |].
    + apply list_lookup_fmap_Some. exists 1%Z. done.
    + apply list_lookup_fmap_Some. exists k. done.
Qed.

Lemma elem_of_R_inds x :
  x ∈ R_inds v Mask n_sv n bamInds_cv ↔
  Mask_cv v Mask bamInds_cv !! x = Some 1%Z
  ∧ ∃ k, n_sv !! x = Some k ∧ (k < n)%Z.
Proof.
  unfold R_inds, ring_cond. rewrite elem_of_masked_where.
  now setoid_rewrite Z.ltb_lt.
Qed.

Lemma elem_of_I_inds x :
  x ∈ I_inds v Mask n_sv n bamInds_cv ↔
  Mask_cv v Mask bamInds_cv !! x = Some 1%Z ∧ n_sv !! x = Some n.
Proof.
  unfold I_inds, inner_cond. rewrite elem_of_masked_where.
  split.
  - intros (Hm & k & Hk & ->%Z.eqb_eq). done.
  - intros [Hm Hk]. split; [done|]. exists n. split; [done|].
    apply Z.eqb_refl.
Qed.

Lemma R_inds_sorted : StronglySorted lt (R_inds v Mask n_sv n bamInds_cv).
Proof.
  unfold R_inds. rewrite sort_sorted by apply sorted_lt_le, where_from_sorted.
  apply where_from_sorted.
Qed.

Lemma I_inds_sorted : StronglySorted lt (I_inds v Mask n_sv n bamInds_cv).
Proof.
  unfold I_inds. rewrite sort_sorted by apply sorted_lt_le, where_from_sorted.
  apply where_from_sorted.
Qed.
End RingInner.

(** C3: within a group, when no voxel has more than [n] observations, the ring
    voxels (mask = 1 and [n_sv < n]) and the inner voxels (mask = 1 and
    [n_sv = n]) have no voxel in common, and together they are exactly the
    voxels of the group at which the mask is 1 (all the voxels of the group
    when the mask is 1 on the whole group).  The ring boundary is strict:
    a ring voxel has [n_sv < n], and a voxel with [n_sv = n] is never in the
    ring.  Neither list repeats a voxel. *)
Theorem C3_ring_inner_partition (v : nat) (Mask n_sv : list Z) (n : Z)
    (bamInds_cv : list nat) :
  length Mask = v → length n_sv = v → Forall (λ k, k ≤ n)%Z n_sv →
  let R := R_inds v Mask n_sv n bamInds_cv in
  let I := I_inds v Mask n_sv n bamInds_cv in
  (∀ x, x ∈ R → x ∉ I)
  ∧ (∀ x, x ∈ R ∨ x ∈ I ↔ x ∈ bamInds_cv ∧ Mask !! x = Some 1%Z)
  ∧ ((∀ x, x ∈ bamInds_cv → Mask !! x = Some 1%Z) →
     ∀ x, x ∈ R ∨ x ∈ I ↔ x ∈ bamInds_cv)
  ∧ (∀ x, x ∈ R → ∃ k, n_sv !! x = Some k ∧ (k < n)%Z)
  ∧ (∀ x, n_sv !! x = Some n → x ∉ R)
  ∧ NoDup R ∧ NoDup I.
Proof.
  intros HM Hn Hle R I. subst R I.
  assert (∀ x, x ∈ R_inds v Mask n_sv n bamInds_cv
               ∨ x ∈ I_inds v Mask n_sv n bamInds_cv
               ↔ x ∈ bamInds_cv ∧ Mask !! x = Some 1%Z) as Hunion; last first.
  { split_and!; [| exact Hunion | | | | |].
    - intros x [_ (k & Hk & Hlt)]%elem_of_R_inds [_ Hk']%elem_of_I_inds.
      rewrite Hk in Hk'. injection Hk' as ->. lia.
    - intros Hall x. rewrite Hunion. split; [tauto|].
      intros Hx. split; [done | now apply Hall].
    - intros x [_ Hx]%elem_of_R_inds. exact Hx.
    - intros x Hx [_ (k & Hk & Hlt)]%elem_of_R_inds.
      rewrite Hx in Hk. injection Hk as ->. lia.
    - apply sorted_lt_NoDup, R_inds_sorted.
    - apply sorted_lt_NoDup, I_inds_sorted. }
  intros x. rewrite elem_of_R_inds, elem_of_I_inds, Mask_cv_one. split.
  - intros [[(_ & ? & ?) _] | [(_ & ? & ?) _]]; done.
  - intros [Hin Hm].
    assert (x < v) as Hlt by (rewrite <- HM; eapply lookup_lt_Some; eauto).
    destruct (lookup_lt_is_Some_2 n_sv x) as [k Hk]; [lia|].
    assert (k ≤ n)%Z as Hkn.
    { rewrite Forall_forall in Hle. apply Hle.
      eapply list_elem_of_lookup_2; eauto. }
    destruct (decide (k = n)) as [->|Hne].
    + right. done.
    + left. split; [done|]. exists k. split; [done | lia].
Qed.

Lemma C3_ring_inner_partition_witness :
  let Mask := [1; 1; 0; 1; 1; 1]%Z in
  let n_sv := [3; 2; 3; 3; 1; 3]%Z in
  let R := R_inds 6 Mask n_sv 3 [1; 2; 3; 4] in
  let I := I_inds 6 Mask n_sv 3 [1; 2; 3; 4] in
  (R = [1; 4] ∧ I = [3])
  ∧ (∀ x, x ∈ R → x ∉ I)
  ∧ (∀ x, x ∈ R ∨ x ∈ I ↔ x ∈ [1; 2; 3; 4] ∧ Mask !! x = Some 1%Z)
  ∧ ((∀ x, x ∈ [1; 2; 3; 4] → Mask !! x = Some 1%Z) →
     ∀ x, x ∈ R ∨ x ∈ I ↔ x ∈ [1; 2; 3; 4])
  ∧ (∀ x, x ∈ R → ∃ k, n_sv !! x = Some k ∧ (k < 3)%Z)
  ∧ (∀ x, n_sv !! x = Some 3%Z → x ∉ R)
  ∧ NoDup R ∧ NoDup I.
Proof.
  split; [split; reflexivity|].
  apply (C3_ring_inner_partition 6 [1; 1; 0; 1; 1; 1]%Z [3; 2; 3; 3; 1; 3]%Z 3
           [1; 2; 3; 4]); [reflexivity | reflexivity |].
  repeat constructor; lia.
Defined.

(** ** Positions within the analysis mask *)

(** For an ascending sub-array [inds] of the ascending array [amInds], the
    double-argsort lookup succeeds and returns, rank by rank, the position of
    each index within [amInds]. *)
Lemma inds_am_spec (amInds inds : list nat) :
  StronglySorted lt amInds → StronglySorted lt inds → inds ⊆ amInds →
  ∃ am, inds_am amInds inds = Some am
      ∧ Forall2 (λ j x, amInds !! j = Some x) am inds.
Proof.
  intros Ha Hi Hsub. unfold inds_am.
  rewrite argsort_argsort_sorted by now apply sorted_lt_le.
  rewrite sort_sorted by apply sorted_lt_le, where_from_sorted.
  pose proof (where_in1d amInds inds 0) as HW.
  rewrite filter_sorted_subset in HW by done.
  exists (Np.where_ (Np.in1d amInds inds)). split.
  - rewrite <- (Forall2_length _ _ _ HW). apply take_at_seq.
  - eapply Forall2_impl; [exact HW|]. cbn. intros j x [_ Hx].
    now rewrite Nat.sub_0_r in Hx.
Qed.

(** C5: [amInds] being ascending without repetition and containing the voxels
    of the group (a group is a piece of the block [bamInds], itself taken from
    [amInds]), the analysis-mask-relative indices of the ring and of the
    inner subset are computed (no index error), have one entry per voxel of
    the subset, and the entry at rank [i] is the position within [amInds] of
    the [i]-th smallest full-volume index of the subset:
    [amInds[R_inds_am[i]] = R_inds[i]] and [amInds[I_inds_am[i]] = I_inds[i]]. *)
Theorem C5_rank_matching (amInds : list nat) (v : nat) (Mask n_sv : list Z)
    (n : Z) (bamInds_cv : list nat) :
  StronglySorted lt amInds → bamInds_cv ⊆ amInds →
  let R := R_inds v Mask n_sv n bamInds_cv in
  let I := I_inds v Mask n_sv n bamInds_cv in
  StronglySorted lt R ∧ StronglySorted lt I
  ∧ ∃ R_am I_am,
      R_inds_am amInds v Mask n_sv n bamInds_cv = Some R_am
      ∧ I_inds_am amInds v Mask n_sv n bamInds_cv = Some I_am
      ∧ length R_am = length R ∧ length I_am = length I
      ∧ (∀ i r, R !! i = Some r →
           ∃ j, R_am !! i = Some j ∧ amInds !! j = Some r)
      ∧ (∀ i r, I !! i = Some r →
           ∃ j, I_am !! i = Some j ∧ amInds !! j = Some r).
Proof.
  intros Ha Hsub R I.
  assert (R ⊆ amInds) as HR.
  { intros x [(_ & Hx & _)%Mask_cv_one _]%elem_of_R_inds. now apply Hsub. }
  assert (I ⊆ amInds) as HI.
  { intros x [(_ & Hx & _)%Mask_cv_one _]%elem_of_I_inds. now apply Hsub. }
  pose proof (R_inds_sorted v Mask n_sv n bamInds_cv) as HRs.
  pose proof (I_inds_sorted v Mask n_sv n bamInds_cv) as HIs.
  destruct (inds_am_spec amInds R Ha HRs HR) as (R_am & HRam & HR2).
  destruct (inds_am_spec amInds I Ha HIs HI) as (I_am & HIam & HI2).
  split_and!; [done..|]. exists R_am, I_am.
  split_and!; [done | done | | | |].
  - eapply Forall2_length; eauto.
  - eapply Forall2_length; eauto.
  - intros i r Hr. destruct (Forall2_lookup_r _ _ _ _ _ HR2 Hr) as (j & ? & ?).
    eauto.
  - intros i r Hr. destruct (Forall2_lookup_r _ _ _ _ _ HI2 Hr) as (j & ? & ?).
    eauto.
Qed.

Lemma C5_rank_matching_witness :
  let amInds := [0; 1; 3; 4; 5; 7] in
  let Mask := [1; 1; 0; 1; 1; 1; 1; 1]%Z in
  let n_sv := [3; 2; 3; 3; 1; 3; 3; 2]%Z in
  let g := [3; 4; 5; 7] in
  (R_inds 8 Mask n_sv 3 g = [4; 7]
   ∧ R_inds_am amInds 8 Mask n_sv 3 g = Some [3; 5]
   ∧ I_inds 8 Mask n_sv 3 g = [3; 5]
   ∧ I_inds_am amInds 8 Mask n_sv 3 g = Some [2; 4])
  ∧ ∃ R_am I_am,
      R_inds_am amInds 8 Mask n_sv 3 g = Some R_am
      ∧ I_inds_am amInds 8 Mask n_sv 3 g = Some I_am
      ∧ length R_am = length (R_inds 8 Mask n_sv 3 g)
      ∧ length I_am = length (I_inds 8 Mask n_sv 3 g)
      ∧ (∀ i r, R_inds 8 Mask n_sv 3 g !! i = Some r →
           ∃ j, R_am !! i = Some j ∧ amInds !! j = Some r)
      ∧ (∀ i r, I_inds 8 Mask n_sv 3 g !! i = Some r →
           ∃ j, I_am !! i = Some j ∧ amInds !! j = Some r).
Proof.
  split; [repeat split; reflexivity|].
  refine (proj2 (proj2 (C5_rank_matching [0; 1; 3; 4; 5; 7] 8
            [1; 1; 0; 1; 1; 1; 1; 1]%Z [3; 2; 3; 3; 1; 3; 3; 2]%Z 3
            [3; 4; 5; 7] _ _))).
  - repeat constructor; lia.
  - intros x Hx. repeat (apply elem_of_cons in Hx as [->|Hx]);
      [ repeat constructor .. | inversion Hx ].
Defined.

(** ** Resolving the unique product matrices *)

Section Resolver.
Context {A : Type} (zero : A).
Implicit Types (U : matrix A) (uM : list Z) (AtB : list (list A)).

Lemma elem_of_range (a b x : Z) : x ∈ range a b ↔ (a ≤ x < b)%Z.
Proof.
  unfold range. rewrite list_elem_of_fmap. split.
  - intros (k & -> & Hk%elem_of_seq). lia.
  - intros Hx. exists (Z.to_nat (x - a)). split; [lia|].
    apply elem_of_seq. lia.
Qed.

Lemma amax_spec (l : list Z) mx :
  amax l = Some mx → mx ∈ l ∧ Forall (λ u, u ≤ mx)%Z l.
Proof.
  destruct l as [|x t]; [discriminate|]. cbn. intros [= <-].
  revert x. induction t as [|y t IH]; intros x; cbn.
  - split; [left | repeat constructor; lia].
  - destruct (IH (Z.max x y)) as [Hin Hle].
    apply Forall_cons in Hle as [Hxy Hle]. split.
    + apply elem_of_cons in Hin as [Heq|Hin].
      * rewrite Heq. destruct (Z.max_spec x y) as [[_ ->]|[_ ->]];
          [right; left | left].
      * right; right; done.
    + repeat constructor; [lia | lia | done].
Qed.

Lemma lookup_assign_rows (row : list A) (ps : list nat) AtB i :
  foldr (λ i acc, <[i := row]> acc) AtB ps !! i
  = if decide (i ∈ ps) then (λ _, row) <$> AtB !! i else AtB !! i.
Proof.
  induction ps as [|p ps IH]; cbn.
  - rewrite decide_False by (intros H; inversion H). done.
  - destruct (decide (p = i)) as [->|Hne].
    + rewrite decide_True by left.
      destruct (AtB !! i) as [x|] eqn:E; cbn.
      * apply list_lookup_insert_eq.
        assert (is_Some (foldr (λ i acc, <[i := row]> acc) AtB ps !! i))
          as HS by (rewrite IH; case_decide; cbn; eauto).
        now apply lookup_lt_is_Some in HS.
      * apply lookup_ge_None. rewrite length_insert.
        apply lookup_ge_None. rewrite IH. now case_decide.
    + rewrite list_lookup_insert_ne, IH by done.
      destruct (decide (i ∈ ps)) as [Hin|Hin].
      * rewrite decide_True by now right. done.
      * rewrite decide_False; [done|].
        intros [?|?]%elem_of_cons; congruence.
Qed.

Lemma fill_sv_lookup U uM m AtB row :
  mrows U !! Z.to_nat (m - 1) = Some row → length AtB = length uM →
  ∃ AtB', fill_sv U uM m AtB = Some AtB'
        ∧ length AtB' = length uM
        ∧ ∀ i u, uM !! i = Some u →
            AtB' !! i = if decide (u = m) then Some row else AtB !! i.
Proof.
  intros Hrow Hlen. unfold fill_sv. rewrite Hrow. cbn.
  eexists. split; [reflexivity|]. split.
  - generalize (Np.where_ (map (λ u, u =? m)%Z uM)).
    intros ps. induction ps; cbn; [done|]. now rewrite length_insert.
  - intros i u Hu. rewrite lookup_assign_rows.
    assert (is_Some (AtB !! i)) as [x Hx].
    { apply lookup_lt_is_Some. rewrite Hlen. eapply lookup_lt_Some; eauto. }
    rewrite Hx. cbn.
    destruct (decide (u = m)) as [->|Hne].
    + rewrite decide_True; [done|].
      apply elem_of_where. rewrite list_lookup_fmap, Hu. cbn.
      now rewrite Z.eqb_refl.
    + rewrite decide_False; [done|].
      rewrite elem_of_where, list_lookup_fmap, Hu. cbn.
      intros [= Hm%Z.eqb_eq]. done.
Qed.

(** The loop of [readUniqueAtB] for [sv = True], for any list of labels
    that all have a row in the store. *)
Lemma for_fill_sv U uM (ms : list Z) : ∀ AtB,
  length AtB = length uM →
  (∀ m, m ∈ ms → is_Some (mrows U !! Z.to_nat (m - 1))) →
  ∃ rows, for_ ms (fill_sv U uM) AtB = Some rows
        ∧ length rows = length uM
        ∧ ∀ i u, uM !! i = Some u →
            rows !! i = if decide (u ∈ ms)
                        then mrows U !! Z.to_nat (u - 1) else AtB !! i.
Proof.
  induction ms as [|m ms IH]; intros AtB Hlen Hrows; cbn.
  - exists AtB. split_and!; [done..|]. intros i u _.
    rewrite decide_False; [done | intros H; inversion H].
  - destruct (Hrows m) as [row Hrow]; [left|].
    destruct (fill_sv_lookup U uM m AtB row Hrow Hlen)
      as (AtB' & -> & Hlen' & HAtB'). cbn.
    destruct (IH AtB' Hlen') as (rows & -> & Hlen'' & Hr).
    { intros m' Hm'. apply Hrows. now right. }
    exists rows. split_and!; [done..|]. intros i u Hu.
    rewrite (Hr i u Hu), (HAtB' i u Hu).
    destruct (decide (u ∈ ms)) as [Hin|Hin].
    + rewrite decide_True by now right. done.
    + destruct (decide (u = m)) as [->|Hne].
      * rewrite decide_True by left. done.
      * rewrite decide_False; [done|].
        intros [?|?]%elem_of_cons; congruence.
Qed.

(** The loop of [readUniqueAtB] for [sv = False]. *)
Lemma for_fill_inner U (u : Z) (row : list A) (ms : list Z) : ∀ acc,
  mrows U !! Z.to_nat (u - 1) = Some row →
  for_ ms (fill_inner U u) acc
  = Some (if decide (u ∈ ms) then Some row else acc).
Proof.
  induction ms as [|m ms IH]; intros acc Hrow; cbn.
  - rewrite decide_False; [done | intros H; inversion H].
  - assert (fill_inner U u m acc
            = Some (if decide (u = m) then Some row else acc)) as ->.
    { unfold fill_inner. destruct (Z.eqb_spec u m) as [<-|Hne].
      - rewrite Hrow, decide_True by done. done.
      - rewrite decide_False by done. done. }
    cbn. rewrite IH by done.
    destruct (decide (u ∈ ms)) as [Hin|Hin].
    + rewrite decide_True by now right. done.
    + destruct (decide (u = m)) as [->|Hne].
      * rewrite decide_True by left. done.
      * rewrite decide_False; [done|].
        intros [?|?]%elem_of_cons; congruence.
Qed.

(** With labels in [0..M] and [M] below the int32 limit, the loop runs over
    the labels [1..maxM], where [maxM] is the largest label of the mask. *)
Lemma maxM_range uM (M : Z) :
  uM ≠ [] → Forall (λ u, 0 ≤ u ≤ M)%Z uM → (M < 2 ^ 31 - 1)%Z →
  ∃ maxM, Np.int32 <$> amax uM = Some maxM
        ∧ Np.int32 (maxM + 1) = (maxM + 1)%Z
        ∧ (0 ≤ maxM ≤ M)%Z
        ∧ Forall (λ u, u ≤ maxM)%Z uM.
Proof.
  intros Hne Hlab HM.
  destruct (amax uM) as [mx|] eqn:E; [|destruct uM; [done | discriminate]].
  destruct (amax_spec uM mx E) as [Hin Hle].
  rewrite Forall_forall in Hlab. specialize (Hlab mx Hin).
  exists mx. cbn. unfold Np.int32.
  rewrite !wrap_small by lia. done.
Qed.
End Resolver.

(** C4: for a non-empty uniqueness mask whose labels lie in [0..M], [M] the
    number of rows of the unique store (below the int32 limit), and requested
    voxels inside the volume, resolving with [sv = True] returns one row per
    requested voxel; the row of a voxel labelled [m >= 1] is the [m]-th row of
    the store (so the resolved rows that share a label are all that store
    row), and the row of a voxel labelled 0 is all zeros. *)
Theorem C4_resolve_per_voxel {A : Type} (zero : A) (uniquenessMask : list Z)
    (AtB_unique : matrix A) (vinds : list nat) :
  let M := Z.of_nat (length (mrows AtB_unique)) in
  uniquenessMask ≠ [] →
  Forall (λ u, 0 ≤ u ≤ M)%Z uniquenessMask →
  (M < 2 ^ 31 - 1)%Z →
  Forall (λ x, x < length uniquenessMask) vinds →
  ∃ rows,
    readUniqueAtB zero uniquenessMask AtB_unique vinds true
      = Some (PerVoxel rows)
    ∧ length rows = length vinds
    ∧ (∀ i x m, vinds !! i = Some x → uniquenessMask !! x = Some m →
         (1 ≤ m)%Z →
         ∃ row, mrows AtB_unique !! Z.to_nat (m - 1) = Some row
              ∧ rows !! i = Some row)
    ∧ (∀ i x, vinds !! i = Some x → uniquenessMask !! x = Some 0%Z →
         rows !! i = Some (replicate (shape1 AtB_unique) zero)).
Proof.
  intros M Hne Hlab HM Hv.
  destruct (maxM_range uniquenessMask M Hne Hlab HM)
    as (maxM & HmaxM & Hwrap & Hrange & Hle).
  unfold readUniqueAtB. rewrite HmaxM. cbn [mbind option_bind]. rewrite Hwrap.
  assert (is_Some (Np.take_at uniquenessMask vinds)) as [uM HuM].
  { apply mapM_is_Some. eapply Forall_impl; [exact Hv|]. cbn.
    intros x Hx. now apply lookup_lt_is_Some. }
  rewrite HuM. cbn [mbind option_bind].
  apply mapM_Some in HuM.
  pose proof (Forall2_length _ _ _ HuM) as Hlen.
  destruct (for_fill_sv AtB_unique uM (range 1 (maxM + 1))
              (replicate (length vinds) (replicate (shape1 AtB_unique) zero)))
    as (rows & -> & Hrl & Hrows).
  { now rewrite length_replicate. }
  { intros m Hm%elem_of_range. apply lookup_lt_is_Some. lia. }
  exists rows. cbn. split_and!; [done | lia | |].
  - intros i x m Hi Hx Hm.
    destruct (Forall2_lookup_l _ _ _ _ _ HuM Hi) as (u & Hu & Hxu).
    cbn in Hxu. rewrite Hx in Hxu. injection Hxu as <-.
    assert (m ≤ maxM)%Z as Hmm.
    { rewrite Forall_forall in Hle. apply Hle.
      eapply list_elem_of_lookup_2; eauto. }
    rewrite (Hrows i m Hu), decide_True by (apply elem_of_range; lia).
    destruct (lookup_lt_is_Some_2 (mrows AtB_unique) (Z.to_nat (m - 1)))
      as [row Hrow]; [lia|]. eauto.
  - intros i x Hi Hx.
    destruct (Forall2_lookup_l _ _ _ _ _ HuM Hi) as (u & Hu & Hxu).
    cbn in Hxu. rewrite Hx in Hxu. injection Hxu as <-.
    rewrite (Hrows i 0%Z Hu), decide_False by (rewrite elem_of_range; lia).
    apply lookup_replicate_2. eapply lookup_lt_Some; eauto.
Qed.

Lemma C4_resolve_per_voxel_witness :
  let U := Matrix 2 [[10; 11]; [20; 21]]%Z in
  ∃ rows,
    readUniqueAtB 0%Z [0; 2; 1; 2; 0]%Z U [1; 2; 4; 3] true
      = Some (PerVoxel rows)
    ∧ rows = [[20; 21]; [10; 11]; [0; 0]; [20; 21]]%Z
    ∧ length rows = 4
    ∧ (∀ i x m, [1; 2; 4; 3] !! i = Some x →
         [0; 2; 1; 2; 0]%Z !! x = Some m → (1 ≤ m)%Z →
         ∃ row, mrows U !! Z.to_nat (m - 1) = Some row ∧ rows !! i = Some row)
    ∧ (∀ i x, [1; 2; 4; 3] !! i = Some x →
         [0; 2; 1; 2; 0]%Z !! x = Some 0%Z →
         rows !! i = Some (replicate (shape1 U) 0%Z)).
Proof.
  intros U.
  destruct (C4_resolve_per_voxel 0%Z [0; 2; 1; 2; 0]%Z U [1; 2; 4; 3])
    as (rows & Hr & Hlen & Hlab & Hzero).
  - discriminate.
  - repeat constructor; cbn; lia.
  - cbn; lia.
  - repeat constructor; cbn; lia.
  - exists rows. split_and!; [exact Hr | | exact Hlen | exact Hlab | exact Hzero].
    vm_compute in Hr. now injection Hr as <-.
Defined.

(** C9: with [sv = False] the result is decided by the label of the first
    requested voxel alone.  For labels in [0..M] ([M] rows in the store, below
    the int32 limit), if [vinds[0]] carries the label [m >= 1] the function
    returns the [m]-th row of the store, unreplicated; the remaining requested
    voxels play no part (any other tail of [vinds] gives the same result, even
    voxels with other labels or outside the volume), so no consistency check
    takes place.  The only other use of the mask is its maximum, which bounds
    the loop. *)
Theorem C9_resolve_shared_first_voxel {A : Type} (zero : A)
    (uniquenessMask : list Z) (AtB_unique : matrix A)
    (v0 : nat) (rest : list nat) (m : Z) :
  let M := Z.of_nat (length (mrows AtB_unique)) in
  Forall (λ u, 0 ≤ u ≤ M)%Z uniquenessMask →
  (M < 2 ^ 31 - 1)%Z →
  uniquenessMask !! v0 = Some m → (1 ≤ m)%Z →
  (∃ row, mrows AtB_unique !! Z.to_nat (m - 1) = Some row
        ∧ readUniqueAtB zero uniquenessMask AtB_unique (v0 :: rest) false
          = Some (Shared row))
  ∧ (∀ rest',
       readUniqueAtB zero uniquenessMask AtB_unique (v0 :: rest') false
       = readUniqueAtB zero uniquenessMask AtB_unique (v0 :: rest) false).
Proof.
  intros M Hlab HM Hv0 Hm. split; [|reflexivity].
  assert (uniquenessMask ≠ []) as Hne by (intros ->; discriminate).
  destruct (maxM_range uniquenessMask M Hne Hlab HM)
    as (maxM & HmaxM & Hwrap & Hrange & Hle).
  assert (m ≤ maxM)%Z as Hmm.
  { rewrite Forall_forall in Hle. apply Hle.
    eapply list_elem_of_lookup_2; eauto. }
  destruct (lookup_lt_is_Some_2 (mrows AtB_unique) (Z.to_nat (m - 1)))
    as [row Hrow]; [lia|].
  exists row. split; [done|].
  unfold readUniqueAtB. rewrite HmaxM. cbn [mbind option_bind]. rewrite Hwrap.
  change ((v0 :: rest) !! 0) with (Some v0). cbn [mbind option_bind].
  rewrite Hv0. cbn [mbind option_bind].
  rewrite (for_fill_inner AtB_unique m row) by done.
  rewrite decide_True by (apply elem_of_range; lia). reflexivity.
Qed.

Lemma C9_resolve_shared_first_voxel_witness :
  let U := Matrix 2 [[10; 11]; [20; 21]]%Z in
  let uniquenessMask := [0; 2; 1; 2; 0]%Z in
  (∃ row, mrows U !! Z.to_nat (2 - 1) = Some row
        ∧ readUniqueAtB 0%Z uniquenessMask U [3; 2; 0; 9] false
          = Some (Shared row))
  ∧ (∀ rest',
       readUniqueAtB 0%Z uniquenessMask U (3 :: rest') false
       = readUniqueAtB 0%Z uniquenessMask U [3; 2; 0; 9] false).
Proof.
  intros U uniquenessMask.
  apply (C9_resolve_shared_first_voxel 0%Z uniquenessMask U 3 [2; 0; 9] 2%Z).
  - repeat constructor; cbn; lia.
  - cbn; lia.
  - reflexivity.
  - lia.
Defined.

(** ** The call of [blmm_inference.main] *)

Section MainCall.
Variable other_names : list string.
Variable rest : list pyval → list write * result.

(** Whatever it is passed, [main] raises [NameError] on [inds] at line 36
    and writes nothing, unless a star import binds that name. *)
Lemma main_NameError (args : list pyval) :
  "inds"%string ∉ other_names →
  main other_names rest args = ([], Raised (NameError "inds")).
Proof.
  intros Hinds. unfold main, line36_reads. cbn [loads]. unfold load.
  rewrite (decide_False (P := "np"%string ∈ parameters ++ assigned)).
  2:{ apply (bool_decide_unpack (_ ∉ _)). vm_compute. exact I. }
  rewrite (decide_True (P := "np"%string ∈ globals other_names)).
  2:{ apply elem_of_app. left.
      apply (bool_decide_unpack (_ ∈ _)). vm_compute. exact I. }
  rewrite (decide_False (P := "inds"%string ∈ parameters ++ assigned)).
  2:{ apply (bool_decide_unpack (_ ∉ _)). vm_compute. exact I. }
  rewrite (decide_False (P := "inds"%string ∈ globals other_names)); [done|].
  intros [H|H]%elem_of_app; [|done].
  revert H. apply (bool_decide_unpack (_ ∉ _)). vm_compute. exact I.
Qed.
End MainCall.

(** The same holds for every input the body reads: none of them can be
    read anywhere in [main]. *)
Lemma input_names_unbound (other_names bound : list string) (name : string) :
  name ∈ input_names → name ∉ other_names →
  load other_names bound name = Some (NameError name).
Proof.
  intros Hin Hother. unfold load.
  assert (Forall (λ x, (x ∉ parameters ++ assigned) ∧ (x ∉ module_names))
                 input_names) as Hall.
  { apply (bool_decide_unpack (Forall _ _)). vm_compute. exact I. }
  rewrite Forall_forall in Hall. destruct (Hall name Hin) as [Hloc Hmod].
  rewrite decide_False by done.
  rewrite decide_False; [done|].
  unfold globals. intros [H|H]%elem_of_app; done.
Qed.

Lemma inds_not_called : "inds"%string ∉ called_names.
Proof. apply (bool_decide_unpack (_ ∉ _)). vm_compute. exact I. Defined.

(** C2 (code defect): a contrast given as the single-row matrix [[1, 0]]
    is not classified and output as a T contrast.  The call raises
    [NameError] on [inds] at line 36 and writes no file: [main] is declared
    with the starred parameter [args] alone and never binds the names its
    body reads.  The test that the call does not reach, [L.ndim == 1]
    (lines 105 and 122, marked [NTS: FIX THIS]), takes the 1 x 2 array for
    an F contrast. *)
Theorem C2_single_row_contrast_not_T (other_names : list string)
    (rest : list pyval → list write * result) :
  "inds"%string ∉ other_names →
  main other_names rest
       (call (inputs_with [contrast "c1" (PyList [vector [1; 0]%Z])] []))
  = ([], Raised (NameError "inds"))
  ∧ classify (NdArray [1; 2] [1; 0]%Q) = StatF
  ∧ classify (NdArray [2] [1; 0]%Q) = StatT.
Proof.
  intros H. split; [now apply main_NameError|]. split; reflexivity.
Qed.

Lemma C2_single_row_contrast_not_T_witness :
  main called_names (λ _, ([], Returned))
       (call (inputs_with [contrast "c1" (PyList [vector [1; 0]%Z])] []))
  = ([], Raised (NameError "inds"))
  ∧ classify (NdArray [1; 2] [1; 0]%Q) = StatF
  ∧ classify (NdArray [2] [1; 0]%Q) = StatT.
Proof.
  apply (C2_single_row_contrast_not_T called_names (λ _, ([], Returned))).
  exact inds_not_called.
Defined.

(** C6 (code defect): with the contrasts T, F, T in this order, the third
    contrast should go to frame 1 of T volumes with 2 frames and the second
    to frame 0 of F volumes with 1 frame.  The call raises [NameError] on
    [inds] at line 36, before the counters of lines 95-112 exist, and no
    frame of any volume is written. *)
Theorem C6_no_frame_written (other_names : list string)
    (rest : list pyval → list write * result) :
  "inds"%string ∉ other_names →
  main other_names rest
       (call (inputs_with
                [contrast "c1" (vector [1; 0]%Z);
                 contrast "c2" (PyList [vector [1; 0]%Z; vector [0; 1]%Z]);
                 contrast "c3" (vector [0; 1]%Z)] []))
  = ([], Raised (NameError "inds")).
Proof. apply main_NameError. Qed.

Lemma C6_no_frame_written_witness :
  main called_names (λ _, ([], Returned))
       (call (inputs_with
                [contrast "c1" (vector [1; 0]%Z);
                 contrast "c2" (PyList [vector [1; 0]%Z; vector [0; 1]%Z]);
                 contrast "c3" (vector [0; 1]%Z)] []))
  = ([], Raised (NameError "inds")).
Proof.
  apply (C6_no_frame_written called_names (λ _, ([], Returned))).
  exact inds_not_called.
Defined.

(** ** The optional cov(beta) maps *)

(** C8 (code defect): whether the flag [OutputCovB] is absent (where the
    maps should be written, with p^2 = 4 frames) or present, the call
    raises [NameError] on [inds] at line 36, before the flag is read at
    line 76, and [blmm_vox_cov.nii] is not written. *)
Theorem C8_no_covB_written (other_names : list string)
    (rest : list pyval → list write * result) :
  "inds"%string ∉ other_names →
  main other_names rest
       (call (inputs_with [contrast "c1" (vector [1; 0]%Z)] []))
  = ([], Raised (NameError "inds"))
  ∧ main other_names rest
         (call (inputs_with [contrast "c1" (vector [1; 0]%Z)]
                            [("OutputCovB"%string, PyBool true)]))
    = ([], Raised (NameError "inds")).
Proof. intros H. split; now apply main_NameError. Qed.

Lemma C8_no_covB_written_witness :
  main called_names (λ _, ([], Returned))
       (call (inputs_with [contrast "c1" (vector [1; 0]%Z)] []))
  = ([], Raised (NameError "inds"))
  ∧ main called_names (λ _, ([], Returned))
         (call (inputs_with [contrast "c1" (vector [1; 0]%Z)]
                            [("OutputCovB"%string, PyBool true)]))
    = ([], Raised (NameError "inds")).
Proof.
  apply (C8_no_covB_written called_names (λ _, ([], Returned))).
  exact inds_not_called.
Defined.

(** ** Residual mean squares *)

(** C7 (code defect): for one voxel with n = 4 and p = 2 the residual mean
    square e'e/(n - p) should be written to [blmm_voxesms.nii].  The call
    raises [NameError] on [inds] at line 36, before line 69 computes
    [resms], and nothing is written. *)
Theorem C7_no_resms_written (other_names : list string)
    (rest : list pyval → list write * result) :
  "inds"%string ∉ other_names →
  main other_names rest
       (call (inputs_with [contrast "c1" (vector [0; 1]%Z)] []))
  = ([], Raised (NameError "inds")).
Proof. apply main_NameError. Qed.

Lemma C7_no_resms_written_witness :
  main called_names (λ _, ([], Returned))
       (call (inputs_with [contrast "c1" (vector [0; 1]%Z)] []))
  = ([], Raised (NameError "inds")).
Proof.
  apply (C7_no_resms_written called_names (λ _, ([], Returned))).
  exact inds_not_called.
Defined.

(** ** The number of fixed-effect parameters *)

Section FixedEffects.
Context {A : Type}.

Lemma length_concat_rows (rows : list (list A)) (c : nat) :
  Forall (λ r, length r = c) rows → length (concat rows) = length rows * c.
Proof.
  induction 1 as [|r rows Hr _ IH]; cbn; [done|].
  rewrite length_app, IH, Hr. done.
Qed.

(** Reading rows of a well-formed store gives a block as wide as the
    store. *)
Lemma readLinesFromNPY_spec (store : matrix A) (lines : list nat) :
  wf_matrix store → Forall (λ i, i < length (mrows store)) lines →
  ∃ block, readLinesFromNPY store lines = Some block
         ∧ shape block = [length lines; shape1 store]
         ∧ length (data block) = length lines * shape1 store.
Proof.
  intros Hwf Hlines. unfold readLinesFromNPY.
  assert (is_Some (Np.take_at (mrows store) lines)) as [rows Hrows].
  { apply mapM_is_Some. eapply Forall_impl; [exact Hlines|]. cbn.
    intros i Hi. now apply lookup_lt_is_Some. }
  rewrite Hrows. cbn. eexists. split; [reflexivity|]. split; [done|]. cbn.
  apply mapM_Some in Hrows.
  rewrite (Forall2_length _ _ _ Hrows). apply length_concat_rows.
  apply Forall_forall. intros r Hr.
  apply list_elem_of_lookup in Hr as [j Hj].
  destruct (Forall2_lookup_r _ _ _ _ _ Hrows Hj) as (i & _ & Hi).
  unfold wf_matrix in Hwf. rewrite Forall_forall in Hwf. apply Hwf.
  eapply list_elem_of_lookup_2; eauto.
Qed.
End FixedEffects.

(** C10: [p] is the first dimension of the first contrast of the
    configuration, that is the length of its vector, and the later contrasts
    play no part.  For a non-empty voxel subset ([v_r] voxels, one store row
    each) read from a well-formed X'Y store, the reshape of the rows read to
    [v_r x p x 1] succeeds exactly when that [p] equals the number of columns
    of the store, the true number of fixed-effect parameters; when it
    succeeds the array has the shape [v_r x p x 1] and holds the rows read. *)
Theorem C10_p_from_first_contrast {A : Type} (L1 : ndarray Q)
    (others : list (ndarray Q)) (store : matrix A) (inds_am : list nat)
    (v_r p : nat) :
  shape L1 !! 0 = Some p →
  wf_matrix store →
  Forall (λ i, i < length (mrows store)) inds_am →
  length inds_am = v_r → 0 < v_r →
  get_p (L1 :: others) = Some p
  ∧ (∀ d, shape L1 = [length d] → data L1 = d → p = length d)
  ∧ (is_Some (load_XtY store inds_am v_r p) ↔ p = shape1 store)
  ∧ (∀ X, load_XtY store inds_am v_r p = Some X →
          shape X = [v_r; shape1 store; 1]
          ∧ Some (data X) = @concat A <$> Np.take_at (mrows store) inds_am).
Proof.
  intros Hp Hwf Hin Hv Hpos.
  destruct (readLinesFromNPY_spec store inds_am Hwf Hin)
    as (block & Hblock & Hshape & Hlen).
  assert (size_of [v_r; p; 1] = length (data block) ↔ p = shape1 store)
    as Hsize.
  { cbn. rewrite Hlen, Hv. split; [nia | intros ->; lia]. }
  split_and!.
  - unfold get_p. cbn. exact Hp.
  - intros d Hd _. rewrite Hd in Hp. now injection Hp as <-.
  - unfold load_XtY. rewrite Hblock. cbn. unfold reshape.
    case_decide as Hs; rewrite Hsize in Hs.
    + split; [done | eauto].
    + split; [intros [? ?]; discriminate | done].
  - intros X. unfold load_XtY. rewrite Hblock. cbn. unfold reshape.
    case_decide as Hs; [|discriminate]. intros [= <-]. cbn.
    apply Hsize in Hs as ->. split; [done|].
    unfold readLinesFromNPY in Hblock.
    destruct (Np.take_at (mrows store) inds_am); [|discriminate].
    cbn in *. now injection Hblock as <-.
Qed.

Lemma C10_p_from_first_contrast_witness :
  let L1 := NdArray [2] [1; 0]%Q in
  let F1 := NdArray [3; 2] [1; 0; 0; 1; 1; 1]%Q in
  let store := Matrix 2 [[10; 11]; [20; 21]; [30; 31]]%Z in
  (get_p [L1; F1] = Some 2
   ∧ load_XtY store [0; 2] 2 2
     = Some (NdArray [2; 2; 1] [10; 11; 30; 31]%Z)
   ∧ get_p [F1; L1] = Some 3
   ∧ load_XtY store [0; 2] 2 3 = None)
  ∧ (is_Some (load_XtY store [0; 2] 2 2) ↔ 2 = shape1 store).
Proof.
  intros L1 F1 store. split; [repeat split|].
  refine (proj1 (proj2 (proj2
    (C10_p_from_first_contrast L1 [F1] store [0; 2] 2 2 _ _ _ _ _)))).
  - reflexivity.
  - repeat constructor.
  - repeat constructor; cbn; lia.
  - reflexivity.
  - lia.
Defined.

(** ** Behaviour outside the hypotheses above *)

(** A zero memory budget: [nvb] is [0.0] and the group count cannot be
    computed. *)
Example voxelGroups_zero_budget : voxelGroups 0 3 [4; 5; 6] = None.
Proof. reflexivity. Qed.

(** A budget below the cost of one voxel still gives groups, some of them
    empty: 2 voxels with room for half a voxel are split into 5. *)
Example voxelGroups_small_budget :
  voxelGroups 360 3 [4; 5] = Some [[4]; [5]; []; []; []].
Proof. reflexivity. Qed.

(** With [sv = False], a first voxel labelled 0 leaves [AtB] unbound. *)
Example readUniqueAtB_inner_label_zero :
  readUniqueAtB 0%Z [0; 2; 1]%Z (Matrix 2 [[10; 11]; [20; 21]]%Z) [0; 1] false
  = None.
Proof. reflexivity. Qed.

(** With [sv = True], a label anywhere in the mask beyond the rows of the
    store is an index error, whether or not that voxel is requested. *)
Example readUniqueAtB_label_beyond_store :
  readUniqueAtB 0%Z [0; 3; 1]%Z (Matrix 2 [[10; 11]; [20; 21]]%Z) [2] true
  = None.
Proof. reflexivity. Qed.

(** The rank matching needs [amInds] in ascending order: on [[5; 3]] the
    positions found for the subset [[3; 5]] point at 5 and 3. *)
Example inds_am_unsorted_amInds :
  inds_am [5; 3] [3; 5] = Some [0; 1]
  ∧ [5; 3] !! 0 = Some 5.
Proof. split; reflexivity. Qed.

(** Where float64 rounds the quotient [MAXMEM/(10*8*q^2)] the count can
    differ from the exact one: [8/80] is the double [0.1], just above
    [1/10], and [1 // 0.1] is [9.0]. *)
Example nvg_f64_rounded_quotient :
  nvg_f64 8 1 [3] = Some 10%Z ∧ nvg 8 1 [3] = Some 11%Z.
Proof. split; vm_compute; reflexivity. Qed.

(** The same with the default budget [2**32] and [q = 4096]: 16 voxels are
    split into 5 groups. *)
Example nvg_f64_default_budget :
  nvg_f64 (2 ^ 32) 4096 (replicate 16 0) = Some 5%Z
  ∧ nvg (2 ^ 32) 4096 (replicate 16 0) = Some 6%Z.
Proof. split; vm_compute; reflexivity. Qed.

(** A budget above [2^53] is rounded when it is converted: a block that
    would fit the exact budget is cut in two. *)
Example nvg_f64_budget_above_2_53 :
  nvg_f64 9008674525675521 10363 (replicate (Z.to_nat (2 ^ 20)) 0)
  = Some 2%Z
  ∧ (2 ^ 20 * (10 * 8 * 10363 ^ 2) < 9008674525675521)%Z.
Proof. split; [vm_compute; reflexivity | lia]. Qed.

(** A divisor that wraps around to zero ([q = 2^32]) makes [nvb] infinite:
    one group.  A zero budget makes the count a nan or an infinity, on which
    [int] raises. *)
Example nvg_f64_zero_divisor :
  nvb_f64 5 (2 ^ 32) = F64.Inf false
  ∧ voxelGroups_f64 5 (2 ^ 32) [4; 5; 6] = Some [[4; 5; 6]]
  ∧ voxelGroups_f64 0 3 [4; 5; 6] = None.
Proof. repeat split; vm_compute; reflexivity. Qed.

(** * Further properties of the code *)

Import Group.

(** ** Voxel groups: failure and memory bound *)

Section GroupBudget.
Local Open Scope Z_scope.


End GroupBudget.





(** ** Ring and inner voxels across the groups of a block *)

Section AcrossGroups.
Variables (v : nat) (Mask n_sv : list Z) (n : Z).

(** The voxels of a group that end up in its ring or in its inner subset. *)
Lemma ring_or_inner_iff (g : list nat) x :
  length Mask = v → length n_sv = v → Forall (λ k, k ≤ n)%Z n_sv →
  x ∈ R_inds v Mask n_sv n g ∨ x ∈ I_inds v Mask n_sv n g
  ↔ x ∈ g ∧ Mask !! x = Some 1%Z.
Proof.
  intros HM Hn Hle. rewrite elem_of_R_inds, elem_of_I_inds, Mask_cv_one. split.
  - intros [[(_ & ? & ?) _] | [(_ & ? & ?) _]]; done.
  - intros [Hin Hm].
    assert (x < v) as Hlt by (rewrite <- HM; eapply lookup_lt_Some; eauto).
    destruct (lookup_lt_is_Some_2 n_sv x) as [k Hk]; [lia|].
    assert (k ≤ n)%Z as Hkn.
    { rewrite Forall_forall in Hle. apply Hle.
      eapply list_elem_of_lookup_2; eauto. }
    destruct (decide (k = n)) as [->|Hne].
    + right. done.
    + left. split; [done|]. exists k. split; [done | lia].
Qed.

Lemma ring_or_inner_in_group (g : list nat) x :
  x ∈ R_inds v Mask n_sv n g ∨ x ∈ I_inds v Mask n_sv n g → x ∈ g.
Proof.
  rewrite elem_of_R_inds, elem_of_I_inds, Mask_cv_one.
  intros [[(_ & ? & _) _] | [(_ & ? & _) _]]; done.
Qed.
End AcrossGroups.






(** X4: a voxel is left out of both subsets of a group, and so never handed
    to the estimation, as soon as it is not in the group, lies outside the
    volume, has a mask value other than 1, or has more observations than
    [n]. *)
Theorem skipped_voxels (v : nat) (Mask n_sv : list Z) (n : Z)
    (bamInds_cv : list nat) (x : nat) :
  (x ∉ bamInds_cv) ∨ v ≤ x ∨ (Mask !! x ≠ Some 1%Z)
    ∨ (∃ k, n_sv !! x = Some k ∧ (n < k)%Z) →
  (x ∉ R_inds v Mask n_sv n bamInds_cv)
  ∧ (x ∉ I_inds v Mask n_sv n bamInds_cv).
Proof.
  intros Hskip. rewrite elem_of_R_inds, elem_of_I_inds, Mask_cv_one.
  split.
  - intros [(Hlt & Hin & Hm) (k & Hk & Hkn)].
    destruct Hskip as [?|[?|[?|(k' & Hk' & Hn)]]]; [done | lia | done |].
    rewrite Hk in Hk'. injection Hk' as <-. lia.
  - intros [(Hlt & Hin & Hm) Hk].
    destruct Hskip as [?|[?|[?|(k' & Hk' & Hn)]]]; [done | lia | done |].
    rewrite Hk in Hk'. injection Hk' as <-. lia.
Qed.

Lemma skipped_voxels_witness :
  (1 ∉ R_inds 3 [1; 1; 1]%Z [3; 5; 2]%Z 3 [0; 1; 2])
  ∧ (1 ∉ I_inds 3 [1; 1; 1]%Z [3; 5; 2]%Z 3 [0; 1; 2]).
Proof.
  apply (skipped_voxels 3 [1; 1; 1]%Z [3; 5; 2]%Z 3 [0; 1; 2] 1).
  right. right. right. exists 5%Z. split; [reflexivity | lia].
Defined.

(** X5: the observation counts read for the ring, [n_sv[R_inds,:]], are
    always found (no index error), one per ring voxel and in the order of
    [R_inds], and every one of them is strictly below [n]. *)
Theorem n_sv_r_below_n (v : nat) (Mask n_sv : list Z) (n : Z)
    (bamInds_cv : list nat) :
  let R := R_inds v Mask n_sv n bamInds_cv in
  ∃ ns, n_sv_r n_sv R = Some ns
      ∧ length ns = v_r R
      ∧ Forall (λ k, k < n)%Z ns
      ∧ (∀ i x, R !! i = Some x → ns !! i = n_sv !! x).
Proof.
  intros R.
  assert (is_Some (n_sv_r n_sv R)) as [ns Hns].
  { apply mapM_is_Some, Forall_forall. intros x Hx.
    apply elem_of_R_inds in Hx as [_ (k & Hk & _)]. cbn. eauto. }
  exists ns. pose proof Hns as HF. apply mapM_Some in HF.
  split_and!; [done | | |].
  - symmetry. eapply Forall2_length; eauto.
  - apply Forall_forall. intros k Hk.
    apply list_elem_of_lookup in Hk as [i Hi].
    destruct (Forall2_lookup_r _ _ _ _ _ HF Hi) as (x & Hx & Hxk).
    assert (x ∈ R) as HxR by (eapply list_elem_of_lookup_2; eauto).
    apply elem_of_R_inds in HxR as [_ (k' & Hk' & Hlt)].
    cbn in Hxk. rewrite Hk' in Hxk. now injection Hxk as <-.
  - intros i x Hi.
    destruct (Forall2_lookup_l _ _ _ _ _ HF Hi) as (k & Hk & Hxk).
    cbn in Hxk. now rewrite Hk, Hxk.
Qed.

(** ** [readUniqueAtB]: results and failures for any labelling *)

Section ResolverTotal.
Context {A : Type} (zero : A).
Implicit Types (U : matrix A) (mask uM : list Z).

Lemma int32_labels mask (mx : Z) :
  Forall (λ u, - 2 ^ 31 ≤ u < 2 ^ 31 - 1)%Z mask → amax mask = Some mx →
  Np.int32 mx = mx ∧ Np.int32 (mx + 1) = (mx + 1)%Z
  ∧ Forall (λ u, u ≤ mx)%Z mask.
Proof.
  intros Hlab Hmx. destruct (amax_spec mask mx Hmx) as [Hin Hle].
  rewrite Forall_forall in Hlab. specialize (Hlab mx Hin).
  unfold Np.int32. rewrite !wrap_small by lia. done.
Qed.

(** A loop stops with the exception of the first body that raises. *)
Lemma for_fails {S X : Type} (body : X → S → option S) (m : X)
    (ms : list X) : ∀ s,
  m ∈ ms → (∀ s', body m s' = None) → for_ ms body s = None.
Proof.
  induction ms as [|m' ms IH]; intros s Hin Hfail; [inversion Hin|].
  cbn. destruct (body m' s) as [s'|] eqn:E; [|done]. cbn.
  apply elem_of_cons in Hin as [->|Hin]; [|now apply IH].
  rewrite Hfail in E. discriminate.
Qed.

Lemma for_fill_inner_not_in U (u : Z) (ms : list Z) : ∀ acc,
  u ∉ ms → for_ ms (fill_inner U u) acc = Some acc.
Proof.
  induction ms as [|m ms IH]; intros acc Hnot; [done|]. cbn.
  apply not_elem_of_cons in Hnot as [Hne Hnot].
  assert (fill_inner U u m acc = Some acc) as ->.
  { unfold fill_inner. now destruct (Z.eqb_spec u m). }
  cbn. now apply IH.
Qed.

Lemma take_at_elem_of {B} (arr : list B) ix out :
  Np.take_at arr ix = Some out → ∀ y, y ∈ out → y ∈ arr.
Proof.
  intros Hout%mapM_Some y [i Hi]%list_elem_of_lookup.
  destruct (Forall2_lookup_r _ _ _ _ _ Hout Hi) as (x & _ & Hx).
  eapply list_elem_of_lookup_2; eauto.
Qed.

Lemma take_at_app {B} (arr : list B) ix1 ix2 :
  Np.take_at arr (ix1 ++ ix2)
  = out1 ← Np.take_at arr ix1; out2 ← Np.take_at arr ix2; Some (out1 ++ out2).
Proof.
  unfold Np.take_at. induction ix1 as [|i ix1 IH]; cbn.
  - now destruct (mapM _ ix2).
  - destruct (arr !! i); cbn; [|done]. rewrite IH.
    destruct (mapM _ ix1); cbn; [|done]. now destruct (mapM _ ix2).
Qed.

(** The [sv = True] path in closed form. *)
Lemma readUniqueAtB_sv_closed mask U vinds (mx : Z) :
  Forall (λ u, - 2 ^ 31 ≤ u < 2 ^ 31 - 1)%Z mask → amax mask = Some mx →
  readUniqueAtB zero mask U vinds true
  = if decide (mx ≤ Z.of_nat (length (mrows U)))%Z
    then (λ uM, PerVoxel (resolved_row zero U <$> uM))
           <$> Np.take_at mask vinds
    else None.
Proof.
  intros Hlab Hmx.
  destruct (int32_labels mask mx Hlab Hmx) as (Hw1 & Hw2 & Hle).
  unfold readUniqueAtB. rewrite Hmx. cbn [fmap option_fmap option_map].
  cbn [mbind option_bind]. rewrite Hw1, Hw2.
  destruct (Np.take_at mask vinds) as [uM|] eqn:HuM;
    cbn [mbind option_bind fmap option_fmap option_map];
    [|now case_decide].
  pose proof (take_at_elem_of _ _ _ HuM) as Hsub.
  apply mapM_Some in HuM. pose proof (Forall2_length _ _ _ HuM) as Hlen.
  case_decide as Hrows.
  - destruct (for_fill_sv U uM (range 1 (mx + 1))
                (replicate (length vinds) (replicate (shape1 U) zero)))
      as (rows & -> & Hrl & Hr).
    { now rewrite length_replicate. }
    { intros m Hm%elem_of_range. apply lookup_lt_is_Some. lia. }
    cbn. do 2 f_equal. apply list_eq. intros i.
    rewrite list_lookup_fmap.
    destruct (uM !! i) as [u|] eqn:Hu; cbn.
    + rewrite (Hr i u Hu). unfold resolved_row.
      assert (u ≤ mx)%Z as Hu_le.
      { rewrite Forall_forall in Hle. apply Hle, Hsub.
        eapply list_elem_of_lookup_2; eauto. }
      destruct (decide (1 ≤ u)%Z) as [H1|H1].
      * rewrite decide_True by (apply elem_of_range; lia).
        destruct (lookup_lt_is_Some_2 (mrows U) (Z.to_nat (u - 1)))
          as [row ->]; [lia | done].
      * rewrite decide_False by (rewrite elem_of_range; lia).
        apply lookup_replicate_2. rewrite Hlen. eapply lookup_lt_Some; eauto.
    + apply lookup_ge_None. rewrite Hrl. now apply lookup_ge_None.
  - rewrite (for_fails (fill_sv U uM)
               (Z.of_nat (length (mrows U)) + 1)%Z); [done | |].
    + apply elem_of_range. lia.
    + intros AtB. unfold fill_sv.
      replace (Z.to_nat (Z.of_nat (length (mrows U)) + 1 - 1))
        with (length (mrows U)) by lia.
      now rewrite (lookup_ge_None_2 (mrows U)).
Qed.

(** The [sv = False] path in closed form. *)
Lemma readUniqueAtB_inner_closed mask U vinds :
  Forall (λ u, - 2 ^ 31 ≤ u < 2 ^ 31 - 1)%Z mask →
  readUniqueAtB zero mask U vinds false
  = v0 ← vinds !! 0; u ← mask !! v0;
    if decide (1 ≤ u)%Z then Shared <$> mrows U !! Z.to_nat (u - 1)
    else None.
Proof.
  intros Hlab. unfold readUniqueAtB.
  destruct (amax mask) as [mx|] eqn:Hmx; cbn.
  2:{ destruct mask; [|discriminate].
      destruct (vinds !! 0); cbn; [|done]. now rewrite lookup_nil. }
  destruct (int32_labels mask mx Hlab Hmx) as (Hw1 & Hw2 & Hle).
  rewrite Hw1, Hw2.
  destruct (vinds !! 0) as [v0|]; cbn; [|done].
  destruct (mask !! v0) as [u|] eqn:Hu; cbn; [|done].
  assert (u ≤ mx)%Z as Hu_le.
  { rewrite Forall_forall in Hle. apply Hle.
    eapply list_elem_of_lookup_2; eauto. }
  case_decide as H1.
  - destruct (mrows U !! Z.to_nat (u - 1)) as [row|] eqn:Hrow.
    + rewrite (for_fill_inner U u row) by done.
      rewrite decide_True by (apply elem_of_range; lia). done.
    + rewrite (for_fails (fill_inner U u) u); [done | |].
      * apply elem_of_range. lia.
      * intros s. unfold fill_inner. now rewrite Z.eqb_refl, Hrow.
  - rewrite for_fill_inner_not_in by (rewrite elem_of_range; lia). done.
Qed.
End ResolverTotal.

(** X6: for labels inside the int32 range, resolving with [sv = True]
    succeeds exactly when the mask is not empty, no label anywhere in the
    mask exceeds the number of stored rows (a larger label raises even if no
    requested voxel carries it) and every requested voxel lies inside the
    volume.  The result then holds, for each requested voxel in order, the
    stored row of its label when the label is at least 1 and a row of zeros
    when it is 0 or negative. *)
Theorem readUniqueAtB_sv_succeeds_iff {A : Type} (zero : A)
    (uniquenessMask : list Z) (AtB_unique : matrix A) (vinds : list nat) :
  Forall (λ u, - 2 ^ 31 ≤ u < 2 ^ 31 - 1)%Z uniquenessMask →
  (is_Some (readUniqueAtB zero uniquenessMask AtB_unique vinds true)
   ↔ uniquenessMask ≠ []
     ∧ Forall (λ u, u ≤ Z.of_nat (length (mrows AtB_unique)))%Z uniquenessMask
     ∧ Forall (λ x, x < length uniquenessMask) vinds)
  ∧ (∀ res, readUniqueAtB zero uniquenessMask AtB_unique vinds true = Some res →
       ∃ uM, Np.take_at uniquenessMask vinds = Some uM
           ∧ res = PerVoxel (resolved_row zero AtB_unique <$> uM)).
Proof.
  intros Hlab.
  destruct (amax uniquenessMask) as [mx|] eqn:Hmx.
  2:{ destruct uniquenessMask; [|discriminate]. split.
      - split; [intros [? ?]; discriminate | intros [? _]; done].
      - intros res. discriminate. }
  rewrite (readUniqueAtB_sv_closed zero _ _ _ mx Hlab Hmx).
  destruct (amax_spec _ _ Hmx) as [Hin Hle].
  assert (uniquenessMask ≠ []) as Hne by (intros ->; inversion Hin).
  assert ((mx ≤ Z.of_nat (length (mrows AtB_unique)))%Z
          ↔ Forall (λ u, u ≤ Z.of_nat (length (mrows AtB_unique)))%Z
                   uniquenessMask) as Hmx_iff.
  { split.
    - intros Hmx_le. eapply Forall_impl; [exact Hle|]. cbn. lia.
    - intros Hall. rewrite Forall_forall in Hall. now apply Hall. }
  assert (is_Some (Np.take_at uniquenessMask vinds)
          ↔ Forall (λ x, x < length uniquenessMask) vinds) as Htake.
  { unfold Np.take_at. rewrite mapM_is_Some. apply Forall_iff.
    intros x. cbn. apply lookup_lt_is_Some. }
  split.
  - case_decide as Hrows.
    + rewrite fmap_is_Some, Htake. rewrite Hmx_iff in Hrows. tauto.
    + split; [intros [? ?]; discriminate|].
      intros (_ & Hall & _). now apply Hmx_iff in Hall.
  - intros res. case_decide; [|discriminate].
    destruct (Np.take_at uniquenessMask vinds) as [uM|]; [|discriminate].
    cbn. intros [= <-]. eauto.
Qed.

Lemma readUniqueAtB_sv_succeeds_iff_witness :
  let U := Matrix 2 [[10; 11]; [20; 21]]%Z in
  (is_Some (readUniqueAtB 0%Z [0; 3; 1; -1]%Z U [2; 3] true)
   ↔ [0; 3; 1; -1]%Z ≠ []
     ∧ Forall (λ u, u ≤ Z.of_nat (length (mrows U)))%Z [0; 3; 1; -1]%Z
     ∧ Forall (λ x, x < length [0; 3; 1; -1]%Z) [2; 3])
  ∧ readUniqueAtB 0%Z [0; 3; 1; -1]%Z U [2; 3] true = None
  ∧ readUniqueAtB 0%Z [0; 2; 1; -1]%Z U [2; 3] true
    = Some (PerVoxel [[10; 11]; [0; 0]]%Z).
Proof.
  intros U. split; [|split; reflexivity].
  apply (readUniqueAtB_sv_succeeds_iff 0%Z [0; 3; 1; -1]%Z U [2; 3]).
  repeat constructor; cbn; lia.
Defined.

(** X7: resolving with [sv = True] goes voxel by voxel: when two lists of
    voxels are each resolved, resolving them in one call gives the rows of
    the first list followed by the rows of the second, so cutting a block
    into groups does not change the matrix any voxel receives. *)
Theorem readUniqueAtB_sv_app {A : Type} (zero : A)
    (uniquenessMask : list Z) (AtB_unique : matrix A)
    (vinds1 vinds2 : list nat) (rows1 rows2 : list (list A)) :
  Forall (λ u, - 2 ^ 31 ≤ u < 2 ^ 31 - 1)%Z uniquenessMask →
  readUniqueAtB zero uniquenessMask AtB_unique vinds1 true
    = Some (PerVoxel rows1) →
  readUniqueAtB zero uniquenessMask AtB_unique vinds2 true
    = Some (PerVoxel rows2) →
  readUniqueAtB zero uniquenessMask AtB_unique (vinds1 ++ vinds2) true
    = Some (PerVoxel (rows1 ++ rows2)).
Proof.
  intros Hlab H1 H2.
  destruct (amax uniquenessMask) as [mx|] eqn:Hmx.
  2:{ destruct uniquenessMask; discriminate. }
  rewrite (readUniqueAtB_sv_closed zero _ _ vinds1 mx Hlab Hmx) in H1.
  rewrite (readUniqueAtB_sv_closed zero _ _ vinds2 mx Hlab Hmx) in H2.
  rewrite (readUniqueAtB_sv_closed zero _ _ (vinds1 ++ vinds2) mx Hlab Hmx).
  case_decide; [|discriminate]. rewrite take_at_app.
  destruct (Np.take_at uniquenessMask vinds1) as [uM1|]; [|discriminate].
  destruct (Np.take_at uniquenessMask vinds2) as [uM2|]; [|discriminate].
  cbn in *. injection H1 as <-. injection H2 as <-.
  now rewrite fmap_app.
Qed.

Lemma readUniqueAtB_sv_app_witness :
  let U := Matrix 2 [[10; 11]; [20; 21]]%Z in
  readUniqueAtB 0%Z [0; 2; 1; 2; 0]%Z U ([1; 2] ++ [4; 3]) true
  = Some (PerVoxel ([[20; 21]; [10; 11]] ++ [[0; 0]; [20; 21]])%Z).
Proof.
  intros U.
  apply (readUniqueAtB_sv_app 0%Z [0; 2; 1; 2; 0]%Z U [1; 2] [4; 3]).
  - repeat constructor; cbn; lia.
  - reflexivity.
  - reflexivity.
Defined.

(** X8: for labels inside the int32 range, resolving with [sv = False]
    succeeds exactly when there is a first requested voxel, it lies inside
    the volume and its label [u] has a stored row, [1 <= u <= M]; a first
    voxel labelled 0 leaves the result unassigned and the call raises.  When
    both calls succeed on the same voxels, the row returned is the first row
    of the [sv = True] result. *)
Theorem readUniqueAtB_inner_succeeds_iff {A : Type} (zero : A)
    (uniquenessMask : list Z) (AtB_unique : matrix A) (vinds : list nat) :
  Forall (λ u, - 2 ^ 31 ≤ u < 2 ^ 31 - 1)%Z uniquenessMask →
  (is_Some (readUniqueAtB zero uniquenessMask AtB_unique vinds false)
   ↔ ∃ v0 u, vinds !! 0 = Some v0 ∧ uniquenessMask !! v0 = Some u
           ∧ (1 ≤ u ≤ Z.of_nat (length (mrows AtB_unique)))%Z)
  ∧ (∀ res rows,
       readUniqueAtB zero uniquenessMask AtB_unique vinds false = Some res →
       readUniqueAtB zero uniquenessMask AtB_unique vinds true
         = Some (PerVoxel rows) →
       ∃ row, res = Shared row ∧ rows !! 0 = Some row).
Proof.
  intros Hlab. rewrite (readUniqueAtB_inner_closed zero _ _ _ Hlab). split.
  - split.
    + intros [res Hres].
      destruct (vinds !! 0) as [v0|]; [|discriminate]. cbn in Hres.
      destruct (uniquenessMask !! v0) as [u|] eqn:Hu; [|discriminate].
      cbn in Hres. case_decide; [|discriminate].
      destruct (mrows AtB_unique !! Z.to_nat (u - 1)) as [row|] eqn:Hrow;
        [|discriminate].
      apply lookup_lt_Some in Hrow. exists v0, u. split_and!; [done..|lia].
    + intros (v0 & u & -> & Hu & Hrange). cbn. rewrite Hu. cbn.
      rewrite decide_True by lia. apply fmap_is_Some, lookup_lt_is_Some. lia.
  - intros res rows Hres Hsv.
    destruct (amax uniquenessMask) as [mx|] eqn:Hmx.
    2:{ destruct uniquenessMask; [|discriminate].
        destruct (vinds !! 0); discriminate. }
    rewrite (readUniqueAtB_sv_closed zero _ _ _ mx Hlab Hmx) in Hsv.
    case_decide; [|discriminate].
    destruct (Np.take_at uniquenessMask vinds) as [uM|] eqn:HuM;
      [|discriminate].
    cbn in Hsv. injection Hsv as <-. apply mapM_Some in HuM.
    destruct (vinds !! 0) as [v0|] eqn:Hv0; [|discriminate]. cbn in Hres.
    destruct (Forall2_lookup_l _ _ _ _ _ HuM Hv0) as (u & Hu0 & Hu).
    cbn in Hu. rewrite Hu in Hres. cbn in Hres.
    case_decide as H1; [|discriminate].
    destruct (mrows AtB_unique !! Z.to_nat (u - 1)) as [row|] eqn:Hrow;
      [|discriminate].
    cbn in Hres. injection Hres as <-. exists row. split; [done|].
    rewrite list_lookup_fmap, Hu0. cbn. unfold resolved_row.
    now rewrite decide_True, Hrow.
Qed.

Lemma readUniqueAtB_inner_succeeds_iff_witness :
  let U := Matrix 2 [[10; 11]; [20; 21]]%Z in
  (is_Some (readUniqueAtB 0%Z [0; 2; 1]%Z U [0; 1] false)
   ↔ ∃ v0 u, [0; 1] !! 0 = Some v0 ∧ [0; 2; 1]%Z !! v0 = Some u
           ∧ (1 ≤ u ≤ Z.of_nat (length (mrows U)))%Z)
  ∧ readUniqueAtB 0%Z [0; 2; 1]%Z U [0; 1] false = None
  ∧ readUniqueAtB 0%Z [0; 2; 1]%Z U [1; 0] false = Some (Shared [20; 21]%Z).
Proof.
  intros U. split; [|split; reflexivity].
  apply (readUniqueAtB_inner_succeeds_iff 0%Z [0; 2; 1]%Z U [0; 1]).
  repeat constructor; cbn; lia.
Defined.

(** ** When the positions within the analysis mask can be computed *)

Lemma take_at_seq_is_Some {A} (W : list A) (k : nat) :
  is_Some (Np.take_at W (seq 0 k)) ↔ k ≤ length W.
Proof.
  unfold Np.take_at. rewrite mapM_is_Some, Forall_forall. split.
  - intros Hall. destruct k as [|k]; [lia|].
    destruct (Hall k) as [x Hx]; [apply elem_of_seq; lia|].
    apply lookup_lt_Some in Hx. lia.
  - intros Hk i Hi%elem_of_seq. cbn. apply lookup_lt_is_Some. lia.
Qed.

Lemma inds_am_is_Some (amInds inds : list nat) :
  NoDup amInds → StronglySorted lt inds →
  is_Some (inds_am amInds inds) ↔ inds ⊆ amInds.
Proof.
  intros Ha Hi. unfold inds_am.
  rewrite argsort_argsort_sorted by now apply sorted_lt_le.
  rewrite sort_sorted by apply sorted_lt_le, where_from_sorted.
  rewrite take_at_seq_is_Some. unfold Np.where_.
  rewrite (Forall2_length _ _ _ (where_in1d amInds inds 0)).
  pose proof (sorted_lt_NoDup _ Hi) as Hnd.
  assert (filter (.∈ inds) amInds ⊆+ inds) as Hsub.
  { apply NoDup_submseteq; [now apply NoDup_filter|].
    intros x [Hx _]%list_elem_of_filter. exact Hx. }
  split.
  - intros Hlen x Hx.
    pose proof (submseteq_length_Permutation _ _ Hsub Hlen) as Hperm.
    rewrite <- Hperm in Hx. now apply list_elem_of_filter in Hx as [_ Hx].
  - intros Hincl. apply submseteq_length, NoDup_submseteq; [done|].
    intros x Hx. apply list_elem_of_filter. split; [done | now apply Hincl].
Qed.

(** X9: when [amInds] has no repeated index, the analysis-mask positions of
    the ring (of the inner subset) can be computed exactly when every ring
    (inner) voxel occurs in [amInds]; a subset voxel missing from [amInds]
    makes the indexing by the double-argsort ranks run out of range. *)
Theorem inds_am_succeeds_iff (amInds : list nat) (v : nat)
    (Mask n_sv : list Z) (n : Z) (bamInds_cv : list nat) :
  NoDup amInds →
  (is_Some (R_inds_am amInds v Mask n_sv n bamInds_cv)
   ↔ R_inds v Mask n_sv n bamInds_cv ⊆ amInds)
  ∧ (is_Some (I_inds_am amInds v Mask n_sv n bamInds_cv)
     ↔ I_inds v Mask n_sv n bamInds_cv ⊆ amInds).
Proof.
  intros Ha. split.
  - apply inds_am_is_Some; [done | apply R_inds_sorted].
  - apply inds_am_is_Some; [done | apply I_inds_sorted].
Qed.

Lemma inds_am_succeeds_iff_witness :
  let Mask := [1; 1; 1; 1]%Z in
  let n_sv := [3; 2; 3; 1]%Z in
  ((is_Some (R_inds_am [0; 1; 2] 4 Mask n_sv 3 [1; 2; 3])
    ↔ R_inds 4 Mask n_sv 3 [1; 2; 3] ⊆ [0; 1; 2])
   ∧ (is_Some (I_inds_am [0; 1; 2] 4 Mask n_sv 3 [1; 2; 3])
      ↔ I_inds 4 Mask n_sv 3 [1; 2; 3] ⊆ [0; 1; 2]))
  ∧ R_inds 4 Mask n_sv 3 [1; 2; 3] = [1; 3]
  ∧ R_inds_am [0; 1; 2] 4 Mask n_sv 3 [1; 2; 3] = None
  ∧ I_inds_am [0; 1; 2] 4 Mask n_sv 3 [1; 2; 3] = Some [2].
Proof.
  intros Mask n_sv. split; [|repeat split].
  apply (inds_am_succeeds_iff [0; 1; 2] 4 Mask n_sv 3 [1; 2; 3]).
  apply (bool_decide_unpack (NoDup [0; 1; 2])). vm_compute. exact I.
Defined.

(** ** Every call of [blmm_inference.main] *)

(** X10: whatever arguments it is passed, a call of [blmm_inference.main]
    ends in [NameError] on [inds] at line 36 and writes no frame of any
    volume; and each of the twenty names that the body reads as its inputs
    raises [NameError] wherever it is read, whichever local names are bound
    by then.  Stated for star imports that bind none of these names. *)
Theorem main_writes_no_frame (other_names : list string)
    (rest : list pyval → list write * result) (args : list pyval) :
  Forall (λ name, name ∉ other_names) input_names →
  main other_names rest args = ([], Raised (NameError "inds"))
  ∧ ∀ bound name, name ∈ input_names →
      load other_names bound name = Some (NameError name).
Proof.
  intros Hfree. rewrite Forall_forall in Hfree. split.
  - apply main_NameError. apply Hfree.
    apply (bool_decide_unpack (_ ∈ _)). vm_compute. exact I.
  - intros bound name Hin. apply input_names_unbound; [exact Hin|].
    now apply Hfree.
Qed.

Lemma main_writes_no_frame_witness :
  main called_names (λ _, ([], Returned)) []
  = ([], Raised (NameError "inds"))
  ∧ ∀ bound name, name ∈ input_names →
      load called_names bound name = Some (NameError name).
Proof.
  apply (main_writes_no_frame called_names (λ _, ([], Returned)) []).
  apply (bool_decide_unpack (Forall _ _)). vm_compute. exact I.
Defined.

(** ** Reshaping the unique product matrices *)

Lemma resolved_row_length {A} (zero : A) (U : matrix A) (u : Z) :
  wf_matrix U → length (resolved_row zero U u) = shape1 U.
Proof.
  intros Hwf. unfold resolved_row.
  case_decide; [|apply length_replicate].
  destruct (mrows U !! Z.to_nat (u - 1)) as [row|] eqn:Hrow; cbn;
    [|apply length_replicate].
  unfold wf_matrix in Hwf. rewrite Forall_forall in Hwf. apply Hwf.
  eapply list_elem_of_lookup_2; eauto.
Qed.

(** X11: once [readUniqueAtB] has succeeded on a non-empty list of voxels of
    a well-formed store, the reshape that follows it in [main], to
    [v_r x a x b] for the ring ([sv = True]) and to [1 x a x b] for the inner
    voxels ([sv = False]), succeeds exactly when [a * b] is the width of the
    stored rows: [q*q] for Z'Z, [q*p] for Z'X and [p*p] for X'X must match
    what the batch stage wrote. *)
Theorem load_unique_reshape_iff {A : Type} (zero : A)
    (uniquenessMask : list Z) (AtB_unique : matrix A) (vinds : list nat)
    (sv : bool) (a b : nat) :
  wf_matrix AtB_unique →
  Forall (λ u, - 2 ^ 31 ≤ u < 2 ^ 31 - 1)%Z uniquenessMask →
  vinds ≠ [] →
  is_Some (readUniqueAtB zero uniquenessMask AtB_unique vinds sv) →
  is_Some (load_unique zero uniquenessMask AtB_unique vinds sv
             (if sv then [length vinds; a; b] else [1; a; b]))
  ↔ a * b = shape1 AtB_unique.
Proof.
  intros Hwf Hlab Hne [res Hres]. unfold load_unique. rewrite Hres.
  cbn [mbind option_bind]. unfold reshape.
  assert (0 < length vinds) as Hpos by (destruct vinds; [done | cbn; lia]).
  destruct sv.
  - destruct (amax uniquenessMask) as [mx|] eqn:Hmx.
    2:{ destruct uniquenessMask; discriminate. }
    rewrite (readUniqueAtB_sv_closed zero _ _ _ mx Hlab Hmx) in Hres.
    case_decide; [|discriminate].
    destruct (Np.take_at uniquenessMask vinds) as [uM|] eqn:HuM;
      [|discriminate].
    cbn in Hres. injection Hres as <-.
    apply mapM_Some, Forall2_length in HuM.
    assert (length (concat (resolved_row zero AtB_unique <$> uM))
            = length vinds * shape1 AtB_unique) as Hlen.
    { rewrite (length_concat_rows _ (shape1 AtB_unique)).
      - now rewrite length_fmap, HuM.
      - apply Forall_fmap, Forall_forall. intros u _. cbn.
        now apply resolved_row_length. }
    cbn [as_ndarray data size_of foldr]. rewrite Hlen.
    case_decide as Hs.
    + split; [intros _; nia | eauto].
    + split; [intros [? ?]; discriminate | intros Hab; exfalso; apply Hs; nia].
  - rewrite (readUniqueAtB_inner_closed zero _ _ _ Hlab) in Hres.
    destruct (vinds !! 0) as [v0|]; [|discriminate]. cbn in Hres.
    destruct (uniquenessMask !! v0) as [u|]; [|discriminate]. cbn in Hres.
    case_decide; [|discriminate].
    destruct (mrows AtB_unique !! Z.to_nat (u - 1)) as [row|] eqn:Hrow;
      [|discriminate].
    cbn in Hres. injection Hres as <-.
    assert (length row = shape1 AtB_unique) as Hlen.
    { unfold wf_matrix in Hwf. rewrite Forall_forall in Hwf. apply Hwf.
      eapply list_elem_of_lookup_2; eauto. }
    cbn [as_ndarray data size_of foldr]. rewrite Hlen.
    case_decide as Hs.
    + split; [intros _; nia | eauto].
    + split; [intros [? ?]; discriminate | intros Hab; exfalso; apply Hs; nia].
Qed.

Lemma load_unique_reshape_iff_witness :
  let XtX := Matrix 4 [[1; 0; 0; 1]; [2; 0; 0; 2]]%Z in
  (is_Some (load_unique 0%Z [0; 2; 1]%Z XtX [1; 2] true [length [1; 2]; 2; 2])
   ↔ 2 * 2 = shape1 XtX)
  ∧ load_unique 0%Z [0; 2; 1]%Z XtX [1; 2] true [2; 2; 2]
    = Some (NdArray [2; 2; 2] [2; 0; 0; 2; 1; 0; 0; 1]%Z)
  ∧ load_unique 0%Z [0; 2; 1]%Z XtX [1; 2] true [2; 3; 3] = None
  ∧ load_unique 0%Z [0; 2; 1]%Z XtX [1; 2] false [1; 2; 2]
    = Some (NdArray [1; 2; 2] [2; 0; 0; 2]%Z).
Proof.
  intros XtX. split; [|repeat split].
  apply (load_unique_reshape_iff 0%Z [0; 2; 1]%Z XtX [1; 2] true 2 2).
  - repeat constructor.
  - repeat constructor; cbn; lia.
  - discriminate.
  - vm_compute. eauto.
Defined.

(** ** Counting the voxels of a group *)

(** X12: for a group without repeated voxel and observation counts bounded by
    [n], the ring followed by the inner voxels is a rearrangement of the
    voxels of the group at which the mask is 1, so [v_m = v_i + v_r] is the
    number of those voxels and never exceeds the size of the group. *)
Theorem v_m_counts_masked_voxels (v : nat) (Mask n_sv : list Z) (n : Z)
    (bamInds_cv : list nat) :
  NoDup bamInds_cv →
  length Mask = v → length n_sv = v → Forall (λ k, k ≤ n)%Z n_sv →
  let R := R_inds v Mask n_sv n bamInds_cv in
  let I := I_inds v Mask n_sv n bamInds_cv in
  R ++ I ≡ₚ filter (λ x, Mask !! x = Some 1%Z) bamInds_cv
  ∧ v_m R I = length (filter (λ x, Mask !! x = Some 1%Z) bamInds_cv)
  ∧ v_m R I ≤ length bamInds_cv.
Proof.
  intros Hnd HM Hn Hle R I. subst R I.
  set (R := R_inds v Mask n_sv n bamInds_cv).
  set (I := I_inds v Mask n_sv n bamInds_cv).
  assert (R ++ I ≡ₚ filter (λ x, Mask !! x = Some 1%Z) bamInds_cv) as Hperm.
  { apply NoDup_Permutation.
    - apply NoDup_app. split_and!.
      + apply sorted_lt_NoDup, R_inds_sorted.
      + intros x [_ (k & Hk & Hlt)]%elem_of_R_inds [_ Hk']%elem_of_I_inds.
        rewrite Hk in Hk'. injection Hk' as ->. lia.
      + apply sorted_lt_NoDup, I_inds_sorted.
    - now apply NoDup_filter.
    - intros x. rewrite elem_of_app, list_elem_of_filter. unfold R, I.
      rewrite (ring_or_inner_iff v Mask n_sv n bamInds_cv x HM Hn Hle).
      tauto. }
  split_and!; [exact Hperm | |].
  - unfold v_m, v_i, v_r. rewrite <- Hperm, length_app. lia.
  - unfold v_m, v_i, v_r.
    rewrite Nat.add_comm, <- length_app, Hperm. apply length_filter.
Qed.

Lemma v_m_counts_masked_voxels_witness :
  let Mask := [1; 1; 0; 1; 1; 1]%Z in
  let n_sv := [3; 2; 3; 3; 1; 3]%Z in
  let R := R_inds 6 Mask n_sv 3 [1; 2; 3; 4] in
  let I := I_inds 6 Mask n_sv 3 [1; 2; 3; 4] in
  R ++ I ≡ₚ filter (λ x, Mask !! x = Some 1%Z) [1; 2; 3; 4]
  ∧ v_m R I = length (filter (λ x, Mask !! x = Some 1%Z) [1; 2; 3; 4])
  ∧ v_m R I ≤ length [1; 2; 3; 4].
Proof.
  apply (v_m_counts_masked_voxels 6 [1; 1; 0; 1; 1; 1]%Z [3; 2; 3; 3; 1; 3]%Z 3
           [1; 2; 3; 4]).
  - apply (bool_decide_unpack (NoDup [1; 2; 3; 4])). vm_compute. exact I.
  - reflexivity.
  - reflexivity.
  - repeat constructor; lia.
Defined.

(** ** The group count as a function of the budget *)


(** X13: with a positive budget below [2^53] the whole block is processed
    as one single group exactly when [|bamInds| * 10*8*q^2 < MAXMEM], that
    is when the block is strictly smaller than [nvb]; a block of exactly
    [nvb] voxels is already cut in two.  Stated on the float64 computation
    of the count. *)
Theorem voxelGroups_single_group_iff (MAXMEM q : Z) (bamInds : list nat) :
  (0 < MAXMEM < 2 ^ 53)%Z → (1 ≤ q)%Z → (10 * 8 * q ^ 2 < 2 ^ 63)%Z →
  voxelGroups_f64 MAXMEM q bamInds = Some [bamInds]
  ↔ (Z.of_nat (length bamInds) * (10 * 8 * q ^ 2) < MAXMEM)%Z.
Proof.
  intros HB Hq Hd. split.
  - intros Hgs.
    destruct (Z_lt_le_dec (Z.of_nat (length bamInds) * (10 * 8 * q ^ 2))
                          MAXMEM) as [Hlt|Hge]; [exact Hlt|].
    exfalso.
    destruct (nvg_f64_two MAXMEM q bamInds HB Hq Hd Hge) as (k & Hk & Hk2).
    unfold voxelGroups_f64 in Hgs. rewrite Hk in Hgs.
    cbn [mbind option_bind] in Hgs.
    destruct (array_split_spec bamInds k ltac:(lia)) as (gs & Hgs' & Hlen & _).
    rewrite Hgs in Hgs'. injection Hgs' as <-. cbn in Hlen. lia.
  - intros Hlt. unfold voxelGroups_f64.
    rewrite (nvg_f64_one MAXMEM q bamInds HB Hq Hd Hlt).
    cbn [mbind option_bind].
    destruct (array_split_spec bamInds 1 ltac:(lia))
      as (gs & -> & Hlen & Hcat & _).
    destruct gs as [|g [|g' gs]]; try discriminate.
    cbn in Hcat. rewrite app_nil_r in Hcat. now subst g.
Qed.

Lemma voxelGroups_single_group_iff_witness :
  (voxelGroups_f64 400 1 [3; 4; 5; 6] = Some [[3; 4; 5; 6]]
   ↔ (Z.of_nat (length [3; 4; 5; 6]) * (10 * 8 * 1 ^ 2) < 400)%Z)
  ∧ voxelGroups_f64 400 1 [3; 4; 5; 6] = Some [[3; 4; 5; 6]]
  ∧ voxelGroups_f64 320 1 [3; 4; 5; 6] = Some [[3; 4]; [5; 6]].
Proof.
  split; [|split; vm_compute; reflexivity].
  apply (voxelGroups_single_group_iff 400 1 [3; 4; 5; 6]); lia.
Defined.



(** ** Rows read from the per-voxel stores *)

Lemma concat_chunk {A} (c : nat) (rows : list (list A)) : ∀ i row,
  Forall (λ r, length r = c) rows → rows !! i = Some row →
  take c (drop (i * c) (concat rows)) = row.
Proof.
  induction rows as [|r rows IH]; intros i row Hall Hi; [discriminate|].
  apply Forall_cons in Hall as [Hr Hall]. destruct i as [|i]; cbn in *.
  - injection Hi as ->. now apply take_app_length'.
  - rewrite (drop_app_add' r (concat rows) c (i * c)) by done.
    now apply IH.
Qed.

Lemma load_XtY_aligned {A} (store : matrix A) (amInds inds : list nat) :
  StronglySorted lt amInds → StronglySorted lt inds → inds ⊆ amInds →
  wf_matrix store → length (mrows store) = length amInds →
  ∃ am X, inds_am amInds inds = Some am
        ∧ load_XtY store am (length inds) (shape1 store) = Some X
        ∧ rows_aligned store amInds inds X.
Proof.
  intros Ha Hi Hsub Hwf Hrows.
  destruct (inds_am_spec amInds inds Ha Hi Hsub) as (am & Ham & HF).
  pose proof (Forall2_length _ _ _ HF) as Hlen.
  assert (is_Some (Np.take_at (mrows store) am)) as [rows Hr].
  { apply mapM_is_Some, Forall_forall. intros j Hj. cbn.
    apply list_elem_of_lookup in Hj as [i Hi'].
    destruct (Forall2_lookup_l _ _ _ _ _ HF Hi') as (x & _ & Hx).
    apply lookup_lt_is_Some. rewrite Hrows. eapply lookup_lt_Some; eauto. }
  pose proof Hr as HFr. apply mapM_Some in HFr.
  assert (Forall (λ r, length r = shape1 store) rows) as Hwidth.
  { apply Forall_forall. intros r [i Hi']%list_elem_of_lookup.
    destruct (Forall2_lookup_r _ _ _ _ _ HFr Hi') as (j & _ & Hj).
    unfold wf_matrix in Hwf. rewrite Forall_forall in Hwf. apply Hwf.
    eapply list_elem_of_lookup_2; eauto. }
  exists am, (NdArray [length inds; shape1 store; 1] (concat rows)).
  split; [exact Ham|]. split.
  - unfold load_XtY, readLinesFromNPY. rewrite Hr. cbn. unfold reshape.
    cbn [data size_of foldr].
    rewrite (length_concat_rows rows (shape1 store) Hwidth).
    rewrite <- (Forall2_length _ _ _ HFr), Hlen.
    rewrite decide_True by lia. done.
  - split; [done|]. intros i x Hx. cbn [data].
    destruct (Forall2_lookup_r _ _ _ _ _ HF Hx) as (j & Hj & Hjx).
    destruct (Forall2_lookup_l _ _ _ _ _ HFr Hj) as (row & Hrow & Hjrow).
    exists j, row. split_and!; [done | done |].
    now apply concat_chunk.
Qed.

(** X15: when [amInds] is ascending, holds the voxels of the group and the
    store of a per-voxel product matrix (X'Y, Y'Y or Z'Y) is well formed with
    one row per index of [amInds], the lines requested for the ring and for
    the inner voxels are all rows of the store, the reshape to
    [v x width x 1] succeeds for the width of the store, and the entries of
    voxel number [i] of the subset are the row stored for that very voxel,
    the one at its position within [amInds]. *)
Theorem per_voxel_rows_aligned {A : Type} (store : matrix A)
    (amInds : list nat) (v : nat) (Mask n_sv : list Z) (n : Z)
    (bamInds_cv : list nat) :
  StronglySorted lt amInds → bamInds_cv ⊆ amInds →
  wf_matrix store → length (mrows store) = length amInds →
  let R := R_inds v Mask n_sv n bamInds_cv in
  let I := I_inds v Mask n_sv n bamInds_cv in
  (∃ R_am XtY_r,
     R_inds_am amInds v Mask n_sv n bamInds_cv = Some R_am
     ∧ load_XtY store R_am (v_r R) (shape1 store) = Some XtY_r
     ∧ rows_aligned store amInds R XtY_r)
  ∧ (∃ I_am XtY_i,
       I_inds_am amInds v Mask n_sv n bamInds_cv = Some I_am
       ∧ load_XtY store I_am (v_i I) (shape1 store) = Some XtY_i
       ∧ rows_aligned store amInds I XtY_i).
Proof.
  intros Ha Hsub Hwf Hrows R I. split.
  - apply load_XtY_aligned; [done | apply R_inds_sorted | | done | done].
    intros x Hx. apply Hsub.
    apply (ring_or_inner_in_group v Mask n_sv n bamInds_cv x). now left.
  - apply load_XtY_aligned; [done | apply I_inds_sorted | | done | done].
    intros x Hx. apply Hsub.
    apply (ring_or_inner_in_group v Mask n_sv n bamInds_cv x). now right.
Qed.

Lemma per_voxel_rows_aligned_witness :
  let amInds := [0; 1; 3; 4; 5; 7] in
  let Mask := [1; 1; 0; 1; 1; 1; 1; 1]%Z in
  let n_sv := [3; 2; 3; 3; 1; 3; 3; 2]%Z in
  let g := [3; 4; 5; 7] in
  let store := Matrix 2 [[0; 1]; [10; 11]; [30; 31]; [40; 41]; [50; 51];
                         [70; 71]]%Z in
  (R_inds_am amInds 8 Mask n_sv 3 g = Some [3; 5]
   ∧ load_XtY store [3; 5] 2 2 = Some (NdArray [2; 2; 1] [40; 41; 70; 71]%Z))
  ∧ (∃ R_am XtY_r,
       R_inds_am amInds 8 Mask n_sv 3 g = Some R_am
       ∧ load_XtY store R_am (v_r (R_inds 8 Mask n_sv 3 g)) (shape1 store)
         = Some XtY_r
       ∧ rows_aligned store amInds (R_inds 8 Mask n_sv 3 g) XtY_r).
Proof.
  intros amInds Mask n_sv g store. split; [split; reflexivity|].
  refine (proj1 (per_voxel_rows_aligned store amInds 8 Mask n_sv 3 g
                   _ _ _ _)).
  - repeat constructor; lia.
  - intros x Hx. repeat (apply elem_of_cons in Hx as [->|Hx]);
      [ repeat constructor .. | inversion Hx ].
  - repeat constructor.
  - reflexivity.
Defined.

